(** * Verification of web/shared/src/typeahead.ts

    A shallow embedding of the typeahead matching and ranking functions
    ([remove_diacritics], [query_matches_string], [triage_raw], [triage],
    [sort_emojis]) and the properties their specification states.

    A JavaScript string is a sequence of UTF-16 code units; it is modelled as
    a list of numbers.  The parts of the language runtime that depend on the
    Unicode Character Database (case mapping, decomposition mappings,
    combining classes, the general category M) are the fields of a record
    [Unicode] that every function takes: the theorems hold for every such
    table, the examples are run on a small table [basic] that agrees with the
    Unicode Character Database on the code points the examples use. *)

From Stdlib Require Import NArith ZArith List Ascii String Permutation Sorted Lia ZifyBool Bool.
From stdpp Require Import base decidable countable list gmap sorting.

Local Open Scope N_scope.
#[local] Set Warnings "-clear-no-such-hyp".

(** ** Strings *)

Abbreviation jsstring := (list N).

(** A literal of the source, as code units. *)
Definition str (s : string) : jsstring :=
  map N_of_ascii (list_ascii_of_string s).

(** [s.startsWith(q)] *)
Fixpoint startsWith (s q : jsstring) {struct q} : bool :=
  match q, s with
  | [], _ => true
  | _ :: _, [] => false
  | c :: q', d :: s' => (c =? d) && startsWith s' q'
  end.

(** [s.includes(q)]: [q] starts at some index of [s]. *)
Fixpoint includes (s q : jsstring) : bool :=
  startsWith s q ||
  match s with
  | [] => false
  | _ :: s' => includes s' q
  end.

(** [s.split(sep)] for a non-empty separator: the scan of
    String.prototype.split, one code unit at a time.  [skip] counts the code
    units of a separator that was found and is still being stepped over;
    [cur] is the token read so far. *)
Fixpoint split_scan (sep : jsstring) (skip : nat) (cur s : jsstring)
  : list jsstring :=
  match s with
  | [] => [cur]
  | c :: s' =>
      match skip with
      | S k => split_scan sep k cur s'
      | O =>
          if startsWith s sep
          then cur :: split_scan sep (Nat.pred (length sep)) [] s'
          else split_scan sep 0 (cur ++ [c]) s'
      end
  end.

(** [s.split(sep)]; an empty separator splits into the code units. *)
Definition split (s sep : jsstring) : list jsstring :=
  match sep with
  | [] => map (λ c, [c]) s
  | _ :: _ => split_scan sep 0 [] s
  end.

(** [parts.join(sep)] *)
Fixpoint join (sep : jsstring) (parts : list jsstring) : jsstring :=
  match parts with
  | [] => []
  | p :: rest =>
      match rest with
      | [] => p
      | _ :: _ => p ++ sep ++ join sep rest
      end
  end.

(** [s.replace(/ /g, "_")] *)
Definition spaces_to_underscores (s : jsstring) : jsstring :=
  map (λ c, if c =? 32 then 95 else c) s.

(** ** UTF-16 *)

Definition is_lead (u : N) : bool := (0xD800 <=? u) && (u <=? 0xDBFF).
Definition is_trail (u : N) : bool := (0xDC00 <=? u) && (u <=? 0xDFFF).

(** The code points of a string: a lead surrogate followed by a trail
    surrogate is one code point, any other code unit is a code point of its
    own (an unpaired surrogate too). *)
Fixpoint code_points (s : jsstring) : list N :=
  match s with
  | [] => []
  | u :: rest =>
      match rest with
      | v :: rest' =>
          if is_lead u && is_trail v
          then (0x10000 + (u - 0xD800) * 0x400 + (v - 0xDC00)) :: code_points rest'
          else u :: code_points rest
      | [] => [u]
      end
  end.

Definition utf16_of (c : N) : jsstring :=
  if c <? 0x10000 then [c]
  else [0xD800 + (c - 0x10000) / 0x400; 0xDC00 + (c - 0x10000) mod 0x400].

Definition utf16 (cps : list N) : jsstring := flat_map utf16_of cps.

(** A Unicode scalar value: a code point that is not a surrogate. *)
Definition is_scalar (c : N) : bool :=
  (c <? 0xD800) || ((0xDFFF <? c) && (c <? 0x110000)).

(** A well-formed string: every element is a 16-bit code unit and no
    surrogate is unpaired. *)
Definition well_formed (s : jsstring) : bool :=
  forallb (λ u, u <? 0x10000) s && forallb is_scalar (code_points s).

(** ** The Unicode tables of the runtime *)

Record Unicode := {
  (** String.prototype.toLowerCase (a function of the whole string: the
      mapping of a letter may depend on its context) *)
  toLowerCase : jsstring → jsstring;
  (** the full compatibility decomposition of a code point *)
  decomposition : N → list N;
  (** Canonical_Combining_Class *)
  combining_class : N → N;
  (** General_Category is Mn, Mc or Me: what [\p{M}] matches *)
  is_mark : N → bool
}.

Section Normalizer.
Context (U : Unicode).

(** The Canonical Ordering Algorithm: a code point moves right past every
    neighbour of a smaller, non-zero combining class. *)
Fixpoint reorder_insert (c : N) (l : list N) : list N :=
  match l with
  | [] => [c]
  | d :: l' =>
      if (0 <? combining_class U d) && (combining_class U d <? combining_class U c)
      then d :: reorder_insert c l'
      else c :: l
  end.

Definition canonical_order (l : list N) : list N :=
  fold_right reorder_insert [] l.

(** [s.normalize("NFKD")] *)
Definition normalize_NFKD (s : jsstring) : jsstring :=
  utf16 (canonical_order (flat_map (decomposition U) (code_points s))).

(** [s.replace(unicode_marks, empty)] with [unicode_marks = /\p{M}/gu]: every
    match is deleted, and the [u] flag makes the expression read the string
    by code points. *)
Definition replace_unicode_marks (s : jsstring) : jsstring :=
  utf16 (List.filter (λ c, negb (is_mark U c)) (code_points s)).

Definition remove_diacritics (s : jsstring) : jsstring :=
  replace_unicode_marks (normalize_NFKD s).

(** The source assigns the normalised source string to its parameter.  The
    test [source !== undefined] of the source is true of every element of
    the array [split] returns, and is not modelled. *)
Definition query_matches_string (query source_str split_char : jsstring) : bool :=
  let source_str := toLowerCase U source_str in
  let source_str := remove_diacritics source_str in
  if negb (includes query split_char) then includes source_str query
  else
    let queries := split query split_char in
    let source_arr := split source_str split_char in
    forallb (λ query, existsb (λ source, startsWith source query) source_arr) queries.

End Normalizer.

(** ** Regular expressions

    [triage_raw] builds a regular expression from a string.  [RegExp] is
    modelled on the fragment of the pattern syntax that the function can
    produce: a character class of literal members, an escaped syntax
    character, and a plain character.  A pattern outside the fragment (or one
    the constructor refuses with a SyntaxError) is [None]. *)

Inductive atom :=
  | Class (members : list N)
  | Char (c : N).

(** SyntaxCharacter of the pattern grammar *)
Definition syntax_characters : jsstring := str "^$\.*+?()[]{}|".
Definition is_syntax_character (c : N) : bool := existsb (N.eqb c) syntax_characters.

(** The pattern parser.  [cls] is [Some m] inside a character class whose
    members read so far are [m].  Inside a class a hyphen is taken as a
    member only where it cannot form a range (just before the closing
    bracket). *)
Fixpoint parse_pattern (cls : option (list N)) (p : jsstring) : option (list atom) :=
  match p with
  | [] => match cls with None => Some [] | Some _ => None end
  | c :: p' =>
      match cls with
      | Some m =>
          if c =? 93 then cons (Class m) <$> parse_pattern None p'
          else if c =? 92 then None
          else if c =? 45 then
            match p' with
            | d :: _ => if d =? 93 then parse_pattern (Some (m ++ [c])) p' else None
            | [] => None
            end
          else if (c =? 94) && bool_decide (m = []) then None
          else parse_pattern (Some (m ++ [c])) p'
      | None =>
          if c =? 91 then parse_pattern (Some []) p'
          else if c =? 92 then
            match p' with
            | d :: p'' =>
                if is_syntax_character d then cons (Char d) <$> parse_pattern None p''
                else None
            | [] => None
            end
          else if is_syntax_character c then None
          else cons (Char c) <$> parse_pattern None p'
      end
  end.

Definition atom_matches (a : atom) (c : N) : bool :=
  match a with
  | Class m => existsb (N.eqb c) m
  | Char d => c =? d
  end.

(** The atoms match a prefix of [s]. *)
Fixpoint match_here (r : list atom) (s : jsstring) {struct r} : bool :=
  match r, s with
  | [], _ => true
  | _ :: _, [] => false
  | a :: r', c :: s' => atom_matches a c && match_here r' s'
  end.

(** A match that starts at some index of [s]. *)
Fixpoint match_anywhere (r : list atom) (s : jsstring) : bool :=
  match_here r s ||
  match s with
  | [] => false
  | _ :: s' => match_anywhere r s'
  end.

(** [new RegExp(pattern).test(s)] *)
Definition RegExp_test (pattern s : jsstring) : option bool :=
  r ← parse_pattern None pattern; Some (match_anywhere r s).

(** lodash's [_.escapeRegExp]: every character of [reRegExpChar]
    (the fourteen syntax characters) is replaced by a backslash and
    itself. *)
Definition reRegExpChar : jsstring := str "\^$.*+?()[]{}|".
Definition escapeRegExp (s : jsstring) : jsstring :=
  flat_map (λ c, if existsb (N.eqb c) reRegExpChar then [92; c] else [c]) s.

(** ** Triage *)

Definition word_boundary_chars : jsstring := str " _/-".

Record triage_raw_result (T : Type) := {
  exact_matches : list T;
  begins_with_case_sensitive_matches : list T;
  begins_with_case_insensitive_matches : list T;
  word_boundary_matches : list T;
  no_matches : list T
}.
Arguments exact_matches {T} _.
Arguments begins_with_case_sensitive_matches {T} _.
Arguments begins_with_case_insensitive_matches {T} _.
Arguments word_boundary_matches {T} _.
Arguments no_matches {T} _.

Record triage_result (T : Type) := {
  matches : list T;
  rest : list T
}.
Arguments matches {T} _.
Arguments rest {T} _.

(** [for (const x of xs) body]: the loop state is threaded through the
    iterations; an exception in the body ends the loop. *)
Fixpoint for_of {S T : Type} (body : S → T → option S) (xs : list T) (st : S) : option S :=
  match xs with
  | [] => Some st
  | x :: xs' => st' ← body st x; for_of body xs' st'
  end.

(** [xs.sort(cmp)].  For a consistent comparator (see
    [consistent_comparator] below) the language fixes the result of
    Array.prototype.sort: the items in the order of the comparator, those
    that compare equal in the order they had (the sort is stable).  [sort],
    an insertion from the right, computes that list ([sort_stable_sorted],
    [stable_sorted_unique]).  For any other comparator the language leaves
    the order to the implementation and promises the same items only: there
    [sort] stands for one possible order, and nothing below relies on it.
    The comparator's number is an integer here (only its sign is used). *)
Fixpoint sort_insert {T : Type} (cmp : T → T → Z) (x : T) (l : list T) : list T :=
  match l with
  | [] => [x]
  | y :: l' => if (0 <? cmp x y)%Z then y :: sort_insert cmp x l' else x :: l
  end.

Definition sort {T : Type} (cmp : T → T → Z) (l : list T) : list T :=
  fold_right (sort_insert cmp) [] l.

Section Triage.
Context (U : Unicode) {T : Type}.

(** The body of the loop of [triage_raw]. *)
Definition triage_raw_body (query lower_query : jsstring) (get_item : T → jsstring)
    (acc : triage_raw_result T) (obj : T) : option (triage_raw_result T) :=
  let item := get_item obj in
  let lower_item := toLowerCase U item in
  let '{| exact_matches := ex; begins_with_case_sensitive_matches := cs;
          begins_with_case_insensitive_matches := ci;
          word_boundary_matches := wb; no_matches := no |} := acc in
  if bool_decide (lower_item = lower_query) then
    Some {| exact_matches := ex ++ [obj]; begins_with_case_sensitive_matches := cs;
            begins_with_case_insensitive_matches := ci;
            word_boundary_matches := wb; no_matches := no |}
  else if startsWith item query then
    Some {| exact_matches := ex; begins_with_case_sensitive_matches := cs ++ [obj];
            begins_with_case_insensitive_matches := ci;
            word_boundary_matches := wb; no_matches := no |}
  else if startsWith lower_item lower_query then
    Some {| exact_matches := ex; begins_with_case_sensitive_matches := cs;
            begins_with_case_insensitive_matches := ci ++ [obj];
            word_boundary_matches := wb; no_matches := no |}
  else
    found ← RegExp_test (str "[" ++ word_boundary_chars ++ str "]" ++ escapeRegExp lower_query)
                        lower_item;
    if (found : bool) then
      Some {| exact_matches := ex; begins_with_case_sensitive_matches := cs;
              begins_with_case_insensitive_matches := ci;
              word_boundary_matches := wb ++ [obj]; no_matches := no |}
    else
      Some {| exact_matches := ex; begins_with_case_sensitive_matches := cs;
              begins_with_case_insensitive_matches := ci;
              word_boundary_matches := wb; no_matches := no ++ [obj] |}.

Definition triage_raw (query : jsstring) (objs : list T) (get_item : T → jsstring)
  : option (triage_raw_result T) :=
  let lower_query := match query with [] => [] | _ :: _ => toLowerCase U query end in
  for_of (triage_raw_body query lower_query get_item) objs
    {| exact_matches := []; begins_with_case_sensitive_matches := [];
       begins_with_case_insensitive_matches := [];
       word_boundary_matches := []; no_matches := [] |}.

Definition triage (query : jsstring) (objs : list T) (get_item : T → jsstring)
    (sorting_comparator : option (T → T → Z)) : option (triage_result T) :=
  r ← triage_raw query objs get_item;
  match sorting_comparator with
  | Some cmp =>
      let beginning_matches_sorted :=
        sort cmp (begins_with_case_sensitive_matches r ++
                  begins_with_case_insensitive_matches r) in
      Some {| matches := sort cmp (exact_matches r) ++ beginning_matches_sorted ++
                         sort cmp (word_boundary_matches r);
              rest := sort cmp (no_matches r) |}
  | None =>
      Some {| matches := exact_matches r ++ begins_with_case_sensitive_matches r ++
                         begins_with_case_insensitive_matches r ++
                         word_boundary_matches r;
              rest := no_matches r |}
  end.

End Triage.

(** ** Emoji *)

Definition popular_emojis : list jsstring :=
  [ str "1f44d"; (* +1 *)
    str "1f389"; (* tada *)
    str "1f642"; (* smile *)
    str "2764"; (* heart *)
    str "1f6e0"; (* working_on_it *)
    str "1f419" (* octopus *) ].

Inductive custom_reaction_type := realm_emoji | zulip_extra_emoji.

(** The union type [Emoji]: the first arm has [is_realm_emoji: true], the
    second has [reaction_type: "unicode_emoji"] and [is_realm_emoji: false],
    and only the second has an [emoji_code]. *)
Inductive Emoji :=
  | CustomEmoji (name : jsstring) (reaction_type : custom_reaction_type)
  | UnicodeEmoji (name code : jsstring).

Definition emoji_name (e : Emoji) : jsstring :=
  match e with
  | CustomEmoji n _ => n
  | UnicodeEmoji n _ => n
  end.

Definition is_realm_emoji (e : Emoji) : bool :=
  match e with
  | CustomEmoji _ _ => true
  | UnicodeEmoji _ _ => false
  end.

Section SortEmojis.
(** [T extends Emoji]: an item is read as an [Emoji] through [emoji]. *)
Context (U : Unicode) {T : Type} (emoji : T → Emoji).

(** The query after [query.replace(/ /g, "_")] and [query.toLowerCase()]. *)
Definition emoji_query (query : jsstring) : jsstring :=
  toLowerCase U (spaces_to_underscores query).

(** The local functions and constants of [sort_emojis]; [query] is the
    query after the two assignments above. *)
Definition decent_match (query name : jsstring) : bool :=
  let pieces := split (toLowerCase U name) (str "_") in
  existsb (λ piece, startsWith piece query) pieces.

Definition popular_set : gset (list N) := list_to_set popular_emojis.

Definition is_popular (query : jsstring) (obj : T) : bool :=
  match emoji obj with
  | UnicodeEmoji name code => bool_decide (code ∈ popular_set) && decent_match query name
  | CustomEmoji _ _ => false
  end.

Definition realm_emoji_names (objs : list T) : gset (list N) :=
  list_to_set (map (λ obj, emoji_name (emoji obj))
                   (List.filter (λ obj, is_realm_emoji (emoji obj)) objs)).

Definition perfect_emoji_matches (query : jsstring) (objs : list T) : list T :=
  List.filter (λ obj, bool_decide (emoji_name (emoji obj) = query)) objs.

Definition without_perfect_matches (query : jsstring) (objs : list T) : list T :=
  List.filter (λ obj, negb (bool_decide (emoji_name (emoji obj) = query))) objs.

Definition popular_emoji_matches (query : jsstring) (objs : list T) : list T :=
  List.filter (is_popular query) (without_perfect_matches query objs).

Definition others (query : jsstring) (objs : list T) : list T :=
  List.filter (λ obj, negb (is_popular query obj)) (without_perfect_matches query objs).

Definition prioritise_realm_emojis (emojis : list T) : list T :=
  List.filter (λ e, is_realm_emoji (emoji e)) emojis ++
  List.filter (λ e, negb (is_realm_emoji (emoji e))) emojis.

Definition sorted_results_with_possible_duplicates (query : jsstring) (objs : list T)
  : option (list T) :=
  triage_results ← triage U query (others query objs) (λ x, emoji_name (emoji x)) None;
  Some (perfect_emoji_matches query objs ++
        popular_emoji_matches query objs ++
        prioritise_realm_emojis (matches triage_results) ++
        prioritise_realm_emojis (rest triage_results)).

(** The body of the last loop; its state is the set [unicode_emoji_codes]
    and the array [sorted_unique_results]. *)
Definition unique_body (names : gset (list N)) (st : gset (list N) * list T) (e : T)
  : gset (list N) * list T :=
  let '(unicode_emoji_codes, sorted_unique_results) := st in
  match emoji e with
  | CustomEmoji _ _ => (unicode_emoji_codes, sorted_unique_results ++ [e])
  | UnicodeEmoji name code =>
      if negb (bool_decide (code ∈ unicode_emoji_codes)) &&
         negb (bool_decide (name ∈ names))
      then ({[code]} ∪ unicode_emoji_codes, sorted_unique_results ++ [e])
      else st
  end.

Definition sorted_unique_results (names : gset (list N)) (emojis : list T) : list T :=
  snd (fold_left (unique_body names) emojis (∅, [])).

Definition sort_emojis (objs : list T) (query : jsstring) : option (list T) :=
  let query := emoji_query query in
  emojis ← sorted_results_with_possible_duplicates query objs;
  Some (sorted_unique_results (realm_emoji_names objs) emojis).

End SortEmojis.

(** ** The other functions of the file *)

(** [s.replace(/ /g, " ")] *)
Definition no_break_spaces_to_spaces (s : jsstring) : jsstring :=
  map (λ c, if c =? 0xA0 then 32 else c) s.

Section CleanQuery.
Context (U : Unicode).

Definition clean_query (query : jsstring) : jsstring :=
  let query := remove_diacritics U query in
  let query := no_break_spaces_to_spaces query in
  query.

Definition clean_query_lowercase (query : jsstring) : jsstring :=
  let query := toLowerCase U query in
  let query := clean_query query in
  query.

End CleanQuery.

(** WhiteSpace and LineTerminator of the language: what [parseInt] skips at
    the start of its argument (tab, vertical tab, form feed, the byte order
    mark, the four line terminators, and the space separators of
    Unicode). *)
Definition is_white_space (c : N) : bool :=
  existsb (N.eqb c)
    [0x9; 0xB; 0xC; 0xFEFF; 0xA; 0xD; 0x2028; 0x2029;
     0x20; 0xA0; 0x1680; 0x202F; 0x205F; 0x3000]
  || ((0x2000 <=? c) && (c <=? 0x200A)).

Fixpoint trim_start (s : jsstring) : jsstring :=
  match s with
  | [] => []
  | c :: s' => if is_white_space c then trim_start s' else s
  end.

(** The value of a digit of radix 16. *)
Definition hex_digit (c : N) : option N :=
  if (48 <=? c) && (c <=? 57) then Some (c - 48)
  else if (97 <=? c) && (c <=? 102) then Some (c - 87)
  else if (65 <=? c) && (c <=? 70) then Some (c - 55)
  else None.

(** The number written by the longest prefix of [s] made of digits; [acc] is
    the number read so far, [None] before the first digit. *)
Fixpoint hex_prefix (acc : option N) (s : jsstring) : option N :=
  match s with
  | [] => acc
  | c :: s' =>
      match hex_digit c with
      | Some d => hex_prefix (Some (16 * default 0 acc + d)) s'
      | None => acc
      end
  end.

(** [Number.parseInt(s, 16)]: leading white space is dropped, then a sign,
    then a prefix 0x or 0X; the digits that follow are read up to the first
    character that is not one.  [None] is NaN.  The number is an exact
    integer here: the source passes it to [String.fromCodePoint], which
    refuses every number above 0x10FFFF, and below that bound a double is
    exact. *)
Definition parseInt_16 (s : jsstring) : option Z :=
  let s := trim_start s in
  let '(sign, s) :=
    match s with
    | c :: s' => if c =? 45 then ((-1)%Z, s') else if c =? 43 then (1%Z, s') else (1%Z, s)
    | [] => (1%Z, s)
    end in
  let s :=
    match s with
    | a :: b :: s' => if (a =? 48) && ((b =? 120) || (b =? 88)) then s' else s
    | _ => s
    end in
  match hex_prefix None s with
  | Some n => Some (sign * Z.of_N n)%Z
  | None => None
  end.

(** [String.fromCodePoint(n)]: a RangeError ([None]) for NaN and for a
    number outside 0..0x10FFFF. *)
Definition fromCodePoint (n : option Z) : option jsstring :=
  match n with
  | Some z =>
      if (0 <=? z)%Z && (z <=? 0x10FFFF)%Z then Some (utf16_of (Z.to_N z)) else None
  | None => None
  end.

(** [code.split("-").map(hex => String.fromCodePoint(Number.parseInt(hex, 16))).join("")];
    the exception of one element ends the [map]. *)
Definition parse_unicode_emoji_code (code : jsstring) : option jsstring :=
  chars ← mapM (λ hex, fromCodePoint (parseInt_16 hex)) (split code (str "-"));
  Some (join [] chars).

Section GetEmojiMatcher.
Context (U : Unicode).

(** The function that [get_emoji_matcher(query)] returns.  The second
    operand of [&&] is evaluated for a Unicode emoji only. *)
Definition get_emoji_matcher (query : jsstring) (emoji : Emoji) : option bool :=
  let query := spaces_to_underscores query in
  let query := clean_query_lowercase U query in
  matches_emoji_literal ←
    match emoji with
    | UnicodeEmoji _ emoji_code =>
        decoded ← parse_unicode_emoji_code emoji_code;
        Some (bool_decide (decoded = query))
    | CustomEmoji _ _ => Some false
    end;
  Some (matches_emoji_literal || query_matches_string U query (emoji_name emoji) (str "_")).

End GetEmojiMatcher.

(** ** Definitions used to state the properties *)

(** The five arrays of [triage_raw]. *)
Inductive tier :=
  | Exact
  | CaseSensitivePrefix
  | CaseInsensitivePrefix
  | WordBoundary
  | NoMatch.

#[global] Instance tier_eq_dec : EqDecision tier.
Proof. solve_decision. Defined.

(** [q] occurs in [s] just after one of the word boundary characters. *)
Fixpoint follows_boundary (q s : jsstring) : bool :=
  match s with
  | [] => false
  | b :: s' =>
      (existsb (N.eqb b) word_boundary_chars && startsWith s' q) || follows_boundary q s'
  end.

(** [lower_query] of [triage_raw]: [query.toLowerCase()] for a query that is
    truthy (not empty), the empty string otherwise. *)
Definition lower_query_of (U : Unicode) (query : jsstring) : jsstring :=
  match query with
  | [] => []
  | _ :: _ => toLowerCase U query
  end.

(** The branch of the loop body that the string [item] of an object takes. *)
Definition tier_of (U : Unicode) (query item : jsstring) : tier :=
  let lower_query := lower_query_of U query in
  let lower_item := toLowerCase U item in
  if bool_decide (lower_item = lower_query) then Exact
  else if startsWith item query then CaseSensitivePrefix
  else if startsWith lower_item lower_query then CaseInsensitivePrefix
  else if follows_boundary lower_query lower_item then WordBoundary
  else NoMatch.

(** The classification as the specification words it: the five tests in
    their order of priority, on [lowercase(text)] and [lowercase(query)]. *)
Definition spec_tier (U : Unicode) (query text : jsstring) : tier :=
  let lower_text := toLowerCase U text in
  let lower_query := toLowerCase U query in
  if bool_decide (lower_text = lower_query) then Exact
  else if startsWith text query then CaseSensitivePrefix
  else if startsWith lower_text lower_query then CaseInsensitivePrefix
  else if follows_boundary lower_query lower_text then WordBoundary
  else NoMatch.

(** The objects of a list whose string is in tier [t]. *)
Definition in_tier {T : Type} (f : jsstring → tier) (get_item : T → jsstring)
    (t : tier) (objs : list T) : list T :=
  List.filter (λ obj, bool_decide (f (get_item obj) = t)) objs.

(** [remove_diacritics] on code points: decompose, order, drop the marks. *)
Definition stripped (U : Unicode) (l : list N) : list N :=
  List.filter (λ c, negb (is_mark U c))
    (canonical_order U (flat_map (decomposition U) l)).

(** The array of a result that holds tier [t]. *)
Definition bucket {T : Type} (r : triage_raw_result T) (t : tier) : list T :=
  match t with
  | Exact => exact_matches r
  | CaseSensitivePrefix => begins_with_case_sensitive_matches r
  | CaseInsensitivePrefix => begins_with_case_insensitive_matches r
  | WordBoundary => word_boundary_matches r
  | NoMatch => no_matches r
  end.

(** Facts of the Unicode Character Database that the normaliser relies on:
    a decomposition is full (its code points decompose no further), only
    marks have a non-zero combining class, and scalar values decompose into
    scalar values. *)
Record UnicodeData (U : Unicode) : Prop := {
  decomposition_full : ∀ c d, d ∈ decomposition U c → decomposition U d = [d];
  combining_is_mark : ∀ c, combining_class U c ≠ 0 → is_mark U c = true;
  decomposition_scalar :
    ∀ c d, is_scalar c = true → d ∈ decomposition U c → is_scalar d = true
}.

Definition ascii_lower (c : N) : N :=
  if (65 <=? c) && (c <=? 90) then c + 32 else c.

(** Facts about the Basic Latin block (the code points below 128): case
    mapping is that of the letters A to Z, nothing decomposes, nothing is a
    mark. *)
Record BasicLatin (U : Unicode) : Prop := {
  lower_ascii : ∀ s, Forall (λ c, c < 128) s → toLowerCase U s = map ascii_lower s;
  decomposition_ascii : ∀ c, c < 128 → decomposition U c = [c];
  combining_ascii : ∀ c, c < 128 → combining_class U c = 0;
  mark_ascii : ∀ c, c < 128 → is_mark U c = false
}.

(** A small table: Basic Latin and Latin-1 case mapping, the decompositions
    of e-acute, c-cedilla and the musical half note, the combining marks
    U+0300..U+036F and U+1D165..U+1D169. *)
Definition basic : Unicode := {|
  toLowerCase := map (λ c,
    if (65 <=? c) && (c <=? 90) then c + 32
    else if (0xC0 <=? c) && (c <=? 0xDE) && negb (c =? 0xD7) then c + 32
    else c);
  decomposition := λ c,
    if c =? 0xE9 then [0x65; 0x301]
    else if c =? 0xE7 then [0x63; 0x327]
    else if c =? 0x1D15E then [0x1D157; 0x1D165]
    else [c];
  combining_class := λ c,
    if c =? 0x301 then 230
    else if c =? 0x327 then 202
    else if c =? 0x1D165 then 216
    else 0;
  is_mark := λ c,
    ((0x300 <=? c) && (c <=? 0x36F)) || ((0x1D165 <=? c) && (c <=? 0x1D169))
|}.

(** ** Definitions used to state further properties *)

(** A consistent comparator, as the language defines it for
    Array.prototype.sort: comparing an item with itself gives 0, the items
    that compare equal form classes, and "before" and "after" are
    transitive.  (The language asks this of the items of the array; here it
    is asked of all the values of the type.) *)
Record consistent_comparator {T : Type} (cmp : T → T → Z) : Prop := {
  comparator_refl : ∀ a, cmp a a = 0%Z;
  comparator_sym : ∀ a b, cmp a b = 0%Z → cmp b a = 0%Z;
  comparator_eq_trans : ∀ a b c, cmp a b = 0%Z → cmp b c = 0%Z → cmp a c = 0%Z;
  comparator_lt_trans : ∀ a b c, (cmp a b < 0)%Z → (cmp b c < 0)%Z → (cmp a c < 0)%Z;
  comparator_gt_trans : ∀ a b c, (0 < cmp a b)%Z → (0 < cmp b c)%Z → (0 < cmp a c)%Z
}.

(** [l'] is [l] sorted by [cmp] as Array.prototype.sort must sort it: the
    same items, no item after an item that the comparator puts after it, and
    the items that compare equal in the order they have in [l]. *)
Definition stable_sorted {T : Type} (cmp : T → T → Z) (l l' : list T) : Prop :=
  l' ≡ₚ l ∧
  StronglySorted (λ a b, (cmp a b ≤ 0)%Z) l' ∧
  ∀ x, List.filter (λ y, (cmp x y =? 0)%Z) l' = List.filter (λ y, (cmp x y =? 0)%Z) l.

(** The number that a sequence of digits of radix 16 writes, the lower-case
    character of a digit, and a numeral: the characters of a non-empty
    sequence of digits. *)
Definition hex_value (digits : list N) : N :=
  fold_left (λ a d, 16 * a + d) digits 0.

Definition hex_char (d : N) : N :=
  if d <? 10 then 48 + d else 87 + d.

Definition hex_token (digits : list N) : jsstring := map hex_char digits.

Definition hex_digits (digits : list N) : Prop :=
  digits ≠ [] ∧ Forall (λ d, d < 16) digits.

(** The codes of the Unicode emojis of a list, in its order. *)
Definition unicode_code (e : Emoji) : option jsstring :=
  match e with
  | UnicodeEmoji _ code => Some code
  | CustomEmoji _ _ => None
  end.

Definition unicode_codes {T : Type} (emoji : T → Emoji) (l : list T) : list jsstring :=
  omap (λ x, unicode_code (emoji x)) l.

(** The place of an item in the ranking of [sort_emojis], for the query
    after its normalisation: the perfect matches (0), the popular emojis
    (1), then the matches of [triage], the custom emojis (2 to 5, by tier)
    before the Unicode emojis (6 to 9, by tier), then the rest of [triage],
    custom (10) before Unicode (11). *)
Definition tier_index (t : tier) : nat :=
  match t with
  | Exact => 0
  | CaseSensitivePrefix => 1
  | CaseInsensitivePrefix => 2
  | WordBoundary => 3
  | NoMatch => 4
  end.

Definition rank (U : Unicode) {T : Type} (emoji : T → Emoji) (query : jsstring) (x : T)
  : nat :=
  if bool_decide (emoji_name (emoji x) = query) then 0%nat
  else if is_popular U emoji query x then 1%nat
  else
    match tier_of U query (emoji_name (emoji x)), is_realm_emoji (emoji x) with
    | NoMatch, true => 10%nat
    | NoMatch, false => 11%nat
    | t, true => (2 + tier_index t)%nat
    | t, false => (6 + tier_index t)%nat
    end.

(** The items of [l] whose key is in [a .. a+n-1], by increasing key, those
    of one key in the order of [l]. *)
Definition grouped {A : Type} (key : A → nat) (a n : nat) (l : list A) : list A :=
  flat_map (λ k, List.filter (λ x, key x =? k)%nat l) (seq a n).

(** A code point that [remove_diacritics] has nothing to do with. *)
Definition plain (U : Unicode) (c : N) : Prop :=
  decomposition U c = [c] ∧ combining_class U c = 0 ∧ is_mark U c = false.

(** * Properties *)

(** ** Strings *)

Lemma startsWith_prefix (s q : jsstring) :
  startsWith s q = true ↔ q `prefix_of` s.
Proof.
  revert s. induction q as [|c q IH]; intros s; simpl.
  - split; [intros _; apply prefix_nil | done].
  - destruct s as [|d s].
    + split; [done | intros H; by apply prefix_nil_not in H].
    + rewrite andb_true_iff, N.eqb_eq, IH. split.
      * intros [-> H]. by apply prefix_cons.
      * intros H. split; [by apply prefix_cons_inv_1 in H | by apply prefix_cons_inv_2 in H].
Qed.

Lemma startsWith_nil (s : jsstring) : startsWith s [] = true.
Proof. by destruct s. Qed.

Lemma startsWith_app (q post : jsstring) : startsWith (q ++ post) q = true.
Proof. apply startsWith_prefix. by apply prefix_app_r. Qed.

Lemma includes_infix (s q : jsstring) :
  includes s q = true ↔ ∃ pre post, s = pre ++ q ++ post.
Proof.
  induction s as [|d s IH]; simpl.
  - rewrite orb_false_r, startsWith_prefix. split.
    + intros [k ->]. by exists [], k.
    + intros (pre & post & H). symmetry in H.
      apply app_eq_nil in H as [-> H]. apply app_eq_nil in H as [-> _]. done.
  - rewrite orb_true_iff, startsWith_prefix, IH. split.
    + intros [[k ->] | (pre & post & ->)].
      * by exists [], k.
      * by exists (d :: pre), post.
    + intros (pre & post & H). destruct pre as [|e pre]; simpl in H.
      * left. exists post. done.
      * right. injection H as -> ->. by exists pre, post.
Qed.

(** [split] cuts the string at separators and loses nothing else: joining
    the tokens with the separator gives the string back. *)
Lemma split_scan_skip (sep : jsstring) (k : nat) (cur s : jsstring) :
  split_scan sep k cur s = split_scan sep 0 cur (drop k s).
Proof.
  revert k. induction s as [|c s IH]; intros [|k]; try done.
  simpl split_scan at 1. by rewrite IH.
Qed.

Lemma split_scan_cons (sep : jsstring) (k : nat) (cur s : jsstring) :
  ∃ token tokens, split_scan sep k cur s = token :: tokens.
Proof.
  revert k cur. induction s as [|c s IH]; intros k cur; simpl; [by eauto|].
  destruct k as [|k]; [|done]. destruct (startsWith _ _); [by eauto | done].
Qed.

Lemma join_split_scan (sep : jsstring) (n : nat) (cur s : jsstring) :
  sep ≠ [] → (length s ≤ n)%nat → join sep (split_scan sep 0 cur s) = cur ++ s.
Proof.
  intros Hsep. revert cur s.
  induction n as [|n IH]; intros cur [|c s] Hn; simpl in Hn; try lia;
    try (simpl; by rewrite app_nil_r).
  simpl split_scan. destruct (startsWith (c :: s) sep) eqn:Hstart.
  - apply startsWith_prefix in Hstart as [post Hpost].
    destruct sep as [|d sep]; [done|]. injection Hpost as -> ->.
    rewrite split_scan_skip. simpl Nat.pred. rewrite drop_app_length.
    destruct (split_scan_cons (d :: sep) 0 [] post) as (t & ts & Hts).
    pose proof (IH [] post) as Hpost. rewrite Hts in *.
    change (join ?p (cur :: t :: ts)) with (cur ++ p ++ join p (t :: ts)).
    rewrite Hpost by (rewrite length_app in Hn; lia). done.
  - rewrite IH by lia. by rewrite <- app_assoc.
Qed.

Lemma join_split (s sep : jsstring) : join sep (split s sep) = s.
Proof.
  destruct sep as [|d sep]; simpl.
  - induction s as [|c [|c' s] IH]; [done..|].
    change (map ?f (c :: ?l)) with (f c :: map f l).
    simpl join at 1. simpl in IH. by rewrite IH.
  - by apply (join_split_scan (d :: sep) (length s)).
Qed.

(** ** The regular expression of [triage_raw] *)

Lemma existsb_eqb_elem (c : N) (l : list N) :
  existsb (N.eqb c) l = true ↔ c ∈ l.
Proof.
  induction l as [|d l IH]; simpl.
  - split; [done | by intros ?%elem_of_nil].
  - rewrite orb_true_iff, N.eqb_eq, IH, elem_of_cons. done.
Qed.

Lemma reRegExpChar_syntax (c : N) :
  existsb (N.eqb c) reRegExpChar = is_syntax_character c.
Proof.
  apply eq_true_iff_eq. unfold is_syntax_character.
  rewrite !existsb_eqb_elem.
  change reRegExpChar with [92; 94; 36; 46; 42; 43; 63; 40; 41; 91; 93; 123; 125; 124].
  change syntax_characters with [94; 36; 92; 46; 42; 43; 63; 40; 41; 91; 93; 123; 125; 124].
  rewrite !elem_of_cons, !elem_of_nil. tauto.
Qed.

Lemma escapeRegExp_cons (c : N) (q : jsstring) :
  escapeRegExp (c :: q)
  = (if is_syntax_character c then [92; c] else [c]) ++ escapeRegExp q.
Proof. rewrite <- reRegExpChar_syntax. reflexivity. Qed.

Lemma plain_character (c : N) :
  is_syntax_character c = false → (c =? 91) = false ∧ (c =? 92) = false.
Proof.
  intros H. split; apply N.eqb_neq; intros ->; discriminate H.
Qed.

(** An escaped string is read back as its characters, one by one. *)
Lemma parse_escapeRegExp (q : jsstring) :
  parse_pattern None (escapeRegExp q) = Some (map Char q).
Proof.
  induction q as [|c q IH]; [done|].
  rewrite escapeRegExp_cons.
  destruct (is_syntax_character c) eqn:Hc.
  - change ([92; c] ++ ?r) with (92 :: c :: r). simpl parse_pattern.
    rewrite Hc, IH. done.
  - change ([c] ++ ?r) with (c :: r). simpl parse_pattern.
    destruct (plain_character c Hc) as [-> ->]. rewrite Hc, IH. done.
Qed.

Lemma parse_boundary_pattern (q : jsstring) :
  parse_pattern None (str "[" ++ word_boundary_chars ++ str "]" ++ escapeRegExp q)
  = Some (Class word_boundary_chars :: map Char q).
Proof.
  change (str "[" ++ word_boundary_chars ++ str "]" ++ escapeRegExp q)
    with (91 :: 32 :: 95 :: 47 :: 45 :: 93 :: escapeRegExp q).
  simpl parse_pattern. rewrite parse_escapeRegExp. done.
Qed.

Lemma match_here_chars (q s : jsstring) :
  match_here (map Char q) s = startsWith s q.
Proof.
  revert s. induction q as [|c q IH]; intros [|d s]; simpl; try done.
  rewrite IH, (N.eqb_sym d c). done.
Qed.

Lemma match_anywhere_boundary (q s : jsstring) :
  match_anywhere (Class word_boundary_chars :: map Char q) s = follows_boundary q s.
Proof.
  induction s as [|b s IH]; [done|].
  simpl match_anywhere. simpl follows_boundary.
  rewrite IH, match_here_chars. done.
Qed.

(** The expression is always accepted, and its test is [follows_boundary]. *)
Lemma RegExp_test_boundary (q s : jsstring) :
  RegExp_test (str "[" ++ word_boundary_chars ++ str "]" ++ escapeRegExp q) s
  = Some (follows_boundary q s).
Proof.
  unfold RegExp_test. rewrite parse_boundary_pattern. simpl.
  rewrite match_anywhere_boundary. done.
Qed.

Lemma word_boundary_char (b : N) :
  existsb (N.eqb b) word_boundary_chars = true ↔ b = 32 ∨ b = 95 ∨ b = 47 ∨ b = 45.
Proof.
  rewrite existsb_eqb_elem.
  change word_boundary_chars with [32; 95; 47; 45].
  rewrite !elem_of_cons, !elem_of_nil. tauto.
Qed.

Lemma follows_boundary_spec (q s : jsstring) :
  follows_boundary q s = true ↔
  ∃ pre b post, s = pre ++ b :: q ++ post ∧ (b = 32 ∨ b = 95 ∨ b = 47 ∨ b = 45).
Proof.
  induction s as [|d s IH].
  - split; [done|]. intros (pre & b & post & H & _). by destruct pre.
  - change (follows_boundary q (d :: s))
      with ((existsb (N.eqb d) word_boundary_chars && startsWith s q) || follows_boundary q s).
    rewrite orb_true_iff, andb_true_iff, word_boundary_char, startsWith_prefix, IH.
    split.
    + intros [[Hd [k ->]] | (pre & b & post & -> & Hb)].
      * by exists [], d, k.
      * by exists (d :: pre), b, post.
    + intros (pre & b & post & H & Hb). destruct pre as [|e pre]; simpl in H.
      * injection H as -> ->. left. split; [done | by exists post].
      * injection H as -> ->. right. by exists pre, b, post.
Qed.

(** ** Lists *)

Section Lists.
Context {A : Type}.
Implicit Types (p : A → bool) (l : list A).

Lemma filter_sublist p l : List.filter p l `sublist_of` l.
Proof.
  induction l as [|x l IH]; simpl; [done|].
  destruct (p x); by constructor.
Qed.

Lemma filter_split p l :
  List.filter p l ++ List.filter (λ x, negb (p x)) l ≡ₚ l.
Proof.
  induction l as [|x l IH]; simpl; [done|].
  destruct (p x); simpl.
  - by constructor.
  - rewrite <- Permutation_middle. by constructor.
Qed.

Lemma filter_Forall p l : Forall (λ x, p x = true) (List.filter p l).
Proof.
  apply Forall_forall. intros x Hx%list_elem_of_In.
  by apply filter_In in Hx as [_ Hx].
Qed.

Lemma elem_of_filter p l x : x ∈ List.filter p l ↔ x ∈ l ∧ p x = true.
Proof. rewrite !list_elem_of_In. apply filter_In. Qed.

Lemma sort_insert_perm (cmp : A → A → Z) x l : sort_insert cmp x l ≡ₚ x :: l.
Proof.
  induction l as [|y l IH]; simpl; [done|].
  destruct (0 <? cmp x y)%Z; [|done].
  rewrite IH. apply perm_swap.
Qed.

Lemma sort_perm (cmp : A → A → Z) l : sort cmp l ≡ₚ l.
Proof.
  induction l as [|x l IH]; simpl; [done|].
  rewrite sort_insert_perm. by constructor.
Qed.

(** For a comparator that never says both [a > b] and [b > a], the
    result of [sort] is ordered. *)
Lemma sort_insert_Sorted (cmp : A → A → Z) x l :
  (∀ a b, (0 < cmp a b)%Z → (cmp b a ≤ 0)%Z) →
  Sorted (λ a b, (cmp a b ≤ 0)%Z) l →
  Sorted (λ a b, (cmp a b ≤ 0)%Z) (sort_insert cmp x l).
Proof.
  intros Hcmp. induction 1 as [|y l Hl IH Hy]; simpl.
  - by repeat constructor.
  - destruct (Z.ltb_spec 0 (cmp x y)) as [Hxy|Hxy].
    + constructor; [done|].
      destruct Hy as [|z l Hyz]; simpl.
      * constructor. by apply Hcmp.
      * destruct (0 <? cmp x z)%Z; constructor; [done | by apply Hcmp].
    + constructor; [by constructor | by constructor].
Qed.

Lemma sort_Sorted (cmp : A → A → Z) l :
  (∀ a b, (0 < cmp a b)%Z → (cmp b a ≤ 0)%Z) →
  Sorted (λ a b, (cmp a b ≤ 0)%Z) (sort cmp l).
Proof.
  intros Hcmp. induction l as [|x l IH]; simpl; [constructor|].
  by apply sort_insert_Sorted.
Qed.

End Lists.

(** ** Consistent comparators: what [sort] returns *)

Section Comparators.
Context {A : Type} (cmp : A → A → Z) (Hcmp : consistent_comparator cmp).
Implicit Types (a b c x : A) (l : list A).

Lemma comparator_gt_lt a b : (0 < cmp a b)%Z → (cmp b a < 0)%Z.
Proof.
  intros Hab. destruct (Z.lt_trichotomy (cmp b a) 0%Z) as [?|[Hz|Hgt]]; [done|..].
  - apply (comparator_sym cmp Hcmp) in Hz. lia.
  - pose proof (comparator_gt_trans cmp Hcmp a b a Hab Hgt) as H.
    rewrite (comparator_refl cmp Hcmp) in H. lia.
Qed.

Lemma comparator_antisym a b : (cmp a b ≤ 0)%Z → (cmp b a ≤ 0)%Z → cmp a b = 0%Z.
Proof.
  intros Hab Hba. destruct (Z.eq_dec (cmp a b) 0%Z) as [|Hne]; [done|].
  destruct (Z.eq_dec (cmp b a) 0%Z) as [Hz|Hne'].
  - by apply (comparator_sym cmp Hcmp) in Hz.
  - pose proof (comparator_lt_trans cmp Hcmp a b a ltac:(lia) ltac:(lia)) as H.
    rewrite (comparator_refl cmp Hcmp) in H. lia.
Qed.

Lemma comparator_le_trans a b c :
  (cmp a b ≤ 0)%Z → (cmp b c ≤ 0)%Z → (cmp a c ≤ 0)%Z.
Proof.
  intros Hab Hbc. destruct (Z.lt_ge_cases 0%Z (cmp a c)) as [Hac|]; [|lia].
  apply comparator_gt_lt in Hac.
  destruct (Z.eq_dec (cmp a b) 0%Z) as [Hab0|], (Z.eq_dec (cmp b c) 0%Z) as [Hbc0|].
  - pose proof (comparator_eq_trans cmp Hcmp a b c Hab0 Hbc0). 
    pose proof (comparator_sym cmp Hcmp a c ltac:(done)). lia.
  - pose proof (comparator_lt_trans cmp Hcmp b c a ltac:(lia) Hac) as Hba.
    apply (comparator_sym cmp Hcmp) in Hab0. lia.
  - pose proof (comparator_lt_trans cmp Hcmp c a b Hac ltac:(lia)) as Hcb.
    apply (comparator_sym cmp Hcmp) in Hbc0. lia.
  - pose proof (comparator_lt_trans cmp Hcmp a b c ltac:(lia) ltac:(lia)) as H.
    pose proof (comparator_lt_trans cmp Hcmp a c a H Hac) as H'.
    rewrite (comparator_refl cmp Hcmp) in H'. lia.
Qed.

Lemma sort_StronglySorted l : StronglySorted (λ a b, (cmp a b ≤ 0)%Z) (sort cmp l).
Proof.
  assert (Transitive (λ a b, (cmp a b ≤ 0)%Z)) as Htrans
    by (intros a b c; apply comparator_le_trans).
  apply (Sorted_StronglySorted _ (sort cmp l)), sort_Sorted.
  intros a b Hab%comparator_gt_lt. lia.
Qed.

(** The items that the inserted item passes do not compare equal to it. *)
Lemma sort_insert_stable x y l :
  List.filter (λ z, (cmp x z =? 0)%Z) (sort_insert cmp y l)
  = List.filter (λ z, (cmp x z =? 0)%Z) (y :: l).
Proof.
  induction l as [|z l IH]; [done|].
  simpl sort_insert. destruct (Z.ltb_spec 0%Z (cmp y z)) as [Hyz|]; [|done].
  change (List.filter ?p (z :: ?k)) with (if p z then z :: List.filter p k else List.filter p k).
  rewrite IH. simpl.
  destruct (Z.eqb_spec (cmp x y) 0%Z) as [Hxy|], (Z.eqb_spec (cmp x z) 0%Z) as [Hxz|];
    try done.
  apply (comparator_sym cmp Hcmp) in Hxy.
  pose proof (comparator_eq_trans cmp Hcmp y x z Hxy Hxz). lia.
Qed.

Lemma sort_stable x l :
  List.filter (λ z, (cmp x z =? 0)%Z) (sort cmp l) = List.filter (λ z, (cmp x z =? 0)%Z) l.
Proof.
  induction l as [|y l IH]; [done|].
  simpl sort. rewrite sort_insert_stable. simpl. by rewrite IH.
Qed.

(** [sort] returns the list sorted as the language requires. *)
Lemma sort_stable_sorted l : stable_sorted cmp l (sort cmp l).
Proof.
  split; [apply sort_perm|]. split; [apply sort_StronglySorted|].
  intros x. apply sort_stable.
Qed.

Lemma stable_sorted_agree l1 l2 :
  l1 ≡ₚ l2 →
  StronglySorted (λ a b, (cmp a b ≤ 0)%Z) l1 →
  StronglySorted (λ a b, (cmp a b ≤ 0)%Z) l2 →
  (∀ x, List.filter (λ y, (cmp x y =? 0)%Z) l1 = List.filter (λ y, (cmp x y =? 0)%Z) l2) →
  l1 = l2.
Proof.
  revert l2. induction l1 as [|a l1 IH]; intros l2 Hperm Hs1 Hs2 Hstable.
  { by apply Permutation_nil in Hperm. }
  destruct l2 as [|b l2]; [by apply Permutation_sym, Permutation_nil in Hperm|].
  apply StronglySorted_cons in Hs1 as [Ha Hs1].
  apply StronglySorted_cons in Hs2 as [Hb Hs2].
  rewrite Forall_forall in Ha, Hb.
  assert (a = b) as <-.
  { pose proof (Hstable a) as Hfa. simpl in Hfa.
    rewrite (comparator_refl cmp Hcmp) in Hfa. simpl in Hfa.
    destruct (Z.eqb_spec (cmp a b) 0%Z) as [|Hne]; [congruence|].
    exfalso. apply Hne.
    assert (a ∈ b :: l2) as Hin by (rewrite <- Hperm; apply list_elem_of_here).
    assert (b ∈ a :: l1) as Hin' by (rewrite Hperm; apply list_elem_of_here).
    apply elem_of_cons in Hin as [->|Hin]; [apply (comparator_refl cmp Hcmp)|].
    apply elem_of_cons in Hin' as [->|Hin']; [apply (comparator_refl cmp Hcmp)|].
    apply comparator_antisym; auto. }
  f_equal. apply IH; [by apply Permutation_cons_inv in Hperm | done | done |].
  intros x. specialize (Hstable x). simpl in Hstable.
  destruct (cmp x a =? 0)%Z; congruence.
Qed.

(** There is one such list: what any sort that does as the language requires
    returns, [sort] among them. *)
Lemma stable_sorted_unique l l1 l2 :
  stable_sorted cmp l l1 → stable_sorted cmp l l2 → l1 = l2.
Proof.
  intros (Hp1 & Hs1 & Hst1) (Hp2 & Hs2 & Hst2).
  apply stable_sorted_agree; [by rewrite Hp1, Hp2 | done | done |].
  intros x. by rewrite Hst1, Hst2.
Qed.

End Comparators.

(** ** [triage_raw] *)

Section TriageFacts.
Context (U : Unicode) {T : Type}.
Implicit Types (query : jsstring) (get_item : T → jsstring) (objs : list T).

Lemma in_tier_cons f get_item t x objs :
  in_tier f get_item t (x :: objs) = in_tier f get_item t [x] ++ in_tier f get_item t objs.
Proof. unfold in_tier. simpl. by destruct (bool_decide _). Qed.

Lemma in_tier_sublist f get_item t objs : in_tier f get_item t objs `sublist_of` objs.
Proof. apply filter_sublist. Qed.

Lemma elem_of_in_tier f get_item t objs x :
  x ∈ in_tier f get_item t objs ↔ x ∈ objs ∧ f (get_item x) = t.
Proof. unfold in_tier. by rewrite elem_of_filter, bool_decide_eq_true. Qed.

Lemma in_tier_partition f get_item objs :
  in_tier f get_item Exact objs ++ in_tier f get_item CaseSensitivePrefix objs ++
  in_tier f get_item CaseInsensitivePrefix objs ++ in_tier f get_item WordBoundary objs ++
  in_tier f get_item NoMatch objs ≡ₚ objs.
Proof.
  induction objs as [|x objs IH]; [done|].
  rewrite !(in_tier_cons _ _ _ x objs). unfold in_tier at 1 3 5 7 9. simpl.
  destruct (f (get_item x)); simpl; rewrite <- ?Permutation_middle; by constructor.
Qed.

(** One iteration appends the object to the array of its tier. *)
Lemma triage_raw_body_tier query get_item acc obj :
  triage_raw_body U query (lower_query_of U query) get_item acc obj =
  Some {| exact_matches :=
            exact_matches acc ++ in_tier (tier_of U query) get_item Exact [obj];
          begins_with_case_sensitive_matches :=
            begins_with_case_sensitive_matches acc ++
            in_tier (tier_of U query) get_item CaseSensitivePrefix [obj];
          begins_with_case_insensitive_matches :=
            begins_with_case_insensitive_matches acc ++
            in_tier (tier_of U query) get_item CaseInsensitivePrefix [obj];
          word_boundary_matches :=
            word_boundary_matches acc ++
            in_tier (tier_of U query) get_item WordBoundary [obj];
          no_matches :=
            no_matches acc ++ in_tier (tier_of U query) get_item NoMatch [obj] |}.
Proof.
  destruct acc as [ex cs ci wb no].
  unfold triage_raw_body. rewrite RegExp_test_boundary.
  unfold in_tier, tier_of. simpl.
  destruct (bool_decide _); [by rewrite !app_nil_r|].
  destruct (startsWith (get_item obj) query); [by rewrite !app_nil_r|].
  destruct (startsWith _ (lower_query_of U query)); [by rewrite !app_nil_r|].
  destruct (follows_boundary _ _); by rewrite !app_nil_r.
Qed.

Lemma triage_raw_loop query get_item objs acc :
  for_of (triage_raw_body U query (lower_query_of U query) get_item) objs acc =
  Some {| exact_matches :=
            exact_matches acc ++ in_tier (tier_of U query) get_item Exact objs;
          begins_with_case_sensitive_matches :=
            begins_with_case_sensitive_matches acc ++
            in_tier (tier_of U query) get_item CaseSensitivePrefix objs;
          begins_with_case_insensitive_matches :=
            begins_with_case_insensitive_matches acc ++
            in_tier (tier_of U query) get_item CaseInsensitivePrefix objs;
          word_boundary_matches :=
            word_boundary_matches acc ++
            in_tier (tier_of U query) get_item WordBoundary objs;
          no_matches :=
            no_matches acc ++ in_tier (tier_of U query) get_item NoMatch objs |}.
Proof.
  revert acc. induction objs as [|x objs IH]; intros acc.
  - destruct acc. simpl. by rewrite !app_nil_r.
  - rewrite !(in_tier_cons _ _ _ x objs), !app_assoc.
    change (for_of ?b (x :: objs) acc) with (b acc x ≫= for_of b objs).
    rewrite triage_raw_body_tier. apply IH.
Qed.

(** [triage_raw] returns, and each array holds the objects of its tier in
    the order of the input. *)
Lemma triage_raw_tiers query objs get_item :
  triage_raw U query objs get_item =
  Some {| exact_matches := in_tier (tier_of U query) get_item Exact objs;
          begins_with_case_sensitive_matches :=
            in_tier (tier_of U query) get_item CaseSensitivePrefix objs;
          begins_with_case_insensitive_matches :=
            in_tier (tier_of U query) get_item CaseInsensitivePrefix objs;
          word_boundary_matches := in_tier (tier_of U query) get_item WordBoundary objs;
          no_matches := in_tier (tier_of U query) get_item NoMatch objs |}.
Proof. unfold triage_raw. fold (lower_query_of U query). by rewrite triage_raw_loop. Qed.

(** [triage] returns, and returns the objects of the input. *)
Lemma triage_total query objs get_item comparator :
  ∃ res, triage U query objs get_item comparator = Some res ∧
         matches res ++ rest res ≡ₚ objs.
Proof.
  unfold triage. rewrite triage_raw_tiers. simpl.
  destruct comparator as [cmp|]; eexists; (split; [done|]); simpl.
  - rewrite !sort_perm, <- !app_assoc. apply in_tier_partition.
  - rewrite <- !app_assoc. apply in_tier_partition.
Qed.

End TriageFacts.

Section TriageClaims.
Context (U : Unicode) {T : Type}.
Implicit Types (query : jsstring) (get_item : T → jsstring) (objs : list T).

(** C1: the five arrays returned by [triage_raw] partition the input.
    The function returns for every query, list and projection; each array
    holds exactly the objects of one tier, so every object of the input is
    in exactly one array; the concatenation of the five arrays in their
    order is a permutation of the input (with no repetition when the input
    has none), and each array keeps the order of the input. *)
Theorem triage_raw_partition query objs get_item :
  ∃ r, triage_raw U query objs get_item = Some r ∧
    (∀ t, bucket r t = in_tier (tier_of U query) get_item t objs) ∧
    (∀ x, x ∈ objs →
       ∃ t, x ∈ bucket r t ∧ ∀ t', x ∈ bucket r t' → t' = t) ∧
    exact_matches r ++ begins_with_case_sensitive_matches r ++
      begins_with_case_insensitive_matches r ++ word_boundary_matches r ++
      no_matches r ≡ₚ objs ∧
    (NoDup objs →
       NoDup (exact_matches r ++ begins_with_case_sensitive_matches r ++
              begins_with_case_insensitive_matches r ++ word_boundary_matches r ++
              no_matches r)) ∧
    (∀ t, bucket r t `sublist_of` objs).
Proof.
  eexists. split; [apply triage_raw_tiers|].
  assert (Hb : ∀ t, bucket
    {| exact_matches := in_tier (tier_of U query) get_item Exact objs;
       begins_with_case_sensitive_matches :=
         in_tier (tier_of U query) get_item CaseSensitivePrefix objs;
       begins_with_case_insensitive_matches :=
         in_tier (tier_of U query) get_item CaseInsensitivePrefix objs;
       word_boundary_matches := in_tier (tier_of U query) get_item WordBoundary objs;
       no_matches := in_tier (tier_of U query) get_item NoMatch objs |} t
    = in_tier (tier_of U query) get_item t objs) by (by intros []).
  split; [exact Hb|]. split; [|split; [|split]].
  - intros x Hx. exists (tier_of U query (get_item x)). split.
    + rewrite Hb. by apply elem_of_in_tier.
    + intros t'. rewrite Hb. by intros [_ <-]%elem_of_in_tier.
  - apply in_tier_partition.
  - intros Hnd. simpl. by rewrite in_tier_partition.
  - intros t. rewrite Hb. apply in_tier_sublist.
Qed.

(** The tests of [spec_tier], one by one. *)
Lemma spec_tier_cases query text :
  let lower_text := toLowerCase U text in
  let lower_query := toLowerCase U query in
  let boundary := ∃ pre b post, lower_text = pre ++ b :: lower_query ++ post ∧
                                 (b = 32 ∨ b = 95 ∨ b = 47 ∨ b = 45) in
  (spec_tier U query text = Exact ↔ lower_text = lower_query) ∧
  (spec_tier U query text = CaseSensitivePrefix ↔
     lower_text ≠ lower_query ∧ query `prefix_of` text) ∧
  (spec_tier U query text = CaseInsensitivePrefix ↔
     lower_text ≠ lower_query ∧ ¬ query `prefix_of` text ∧
     lower_query `prefix_of` lower_text) ∧
  (spec_tier U query text = WordBoundary ↔
     lower_text ≠ lower_query ∧ ¬ query `prefix_of` text ∧
     ¬ lower_query `prefix_of` lower_text ∧ boundary) ∧
  (spec_tier U query text = NoMatch ↔
     lower_text ≠ lower_query ∧ ¬ query `prefix_of` text ∧
     ¬ lower_query `prefix_of` lower_text ∧ ¬ boundary).
Proof.
  intros lower_text lower_query boundary. unfold spec_tier.
  fold lower_text lower_query.
  assert (Hb : follows_boundary lower_query lower_text = true ↔ boundary)
    by apply follows_boundary_spec.
  destruct (bool_decide_reflect (lower_text = lower_query)) as [He|He].
  { clear Hb. naive_solver. }
  destruct (startsWith text query) eqn:H1.
  { apply startsWith_prefix in H1. clear Hb. naive_solver. }
  assert (¬ query `prefix_of` text) as H1'.
  { intros H%startsWith_prefix. congruence. }
  destruct (startsWith lower_text lower_query) eqn:H2.
  { apply startsWith_prefix in H2. clear Hb H1. naive_solver. }
  assert (¬ lower_query `prefix_of` lower_text) as H2'.
  { intros H%startsWith_prefix. congruence. }
  clear H1 H2.
  destruct (follows_boundary lower_query lower_text) eqn:H3.
  - assert boundary as Hyes by by apply Hb.
    clear Hb H3. generalize dependent boundary. naive_solver.
  - assert (¬ boundary) as Hno by (intros H%Hb; congruence).
    clear Hb H3. generalize dependent boundary. naive_solver.
Qed.

(** C2: [triage_raw] classifies an item by five tests in a fixed order, the
    first that holds deciding: the lower-cased string equals the lower-cased
    query; else the string as it is starts with the query as it is; else
    the lower-cased string starts with the lower-cased query; else the
    lower-cased query occurs in the lower-cased string just after a space,
    an underscore, a slash or a hyphen; else no match.  The regular
    expression the function builds is accepted for every query and tests
    exactly the fourth condition.  (Lower-casing the empty string gives the
    empty string: the source does not call [toLowerCase] on an empty
    query.) *)
Theorem triage_raw_priority query objs get_item
    (Hempty : toLowerCase U [] = []) :
  (∃ r, triage_raw U query objs get_item = Some r ∧
     ∀ t, bucket r t = in_tier (spec_tier U query) get_item t objs) ∧
  (∀ s, RegExp_test (str "[" ++ word_boundary_chars ++ str "]" ++
                     escapeRegExp (toLowerCase U query)) s
        = Some (follows_boundary (toLowerCase U query) s)) ∧
  ∀ text,
    let lower_text := toLowerCase U text in
    let lower_query := toLowerCase U query in
    let boundary := ∃ pre b post, lower_text = pre ++ b :: lower_query ++ post ∧
                                   (b = 32 ∨ b = 95 ∨ b = 47 ∨ b = 45) in
    (spec_tier U query text = Exact ↔ lower_text = lower_query) ∧
    (spec_tier U query text = CaseSensitivePrefix ↔
       lower_text ≠ lower_query ∧ query `prefix_of` text) ∧
    (spec_tier U query text = CaseInsensitivePrefix ↔
       lower_text ≠ lower_query ∧ ¬ query `prefix_of` text ∧
       lower_query `prefix_of` lower_text) ∧
    (spec_tier U query text = WordBoundary ↔
       lower_text ≠ lower_query ∧ ¬ query `prefix_of` text ∧
       ¬ lower_query `prefix_of` lower_text ∧ boundary) ∧
    (spec_tier U query text = NoMatch ↔
       lower_text ≠ lower_query ∧ ¬ query `prefix_of` text ∧
       ¬ lower_query `prefix_of` lower_text ∧ ¬ boundary).
Proof.
  split; [|split].
  - eexists. split; [apply triage_raw_tiers|].
    assert (Hq : lower_query_of U query = toLowerCase U query)
      by (by destruct query).
    intros t. unfold in_tier, tier_of, spec_tier. rewrite Hq. by destruct t.
  - intros s. apply RegExp_test_boundary.
  - apply spec_tier_cases.
Qed.

Lemma filter_none (p : T → bool) objs :
  (∀ x, p x = false) → List.filter p objs = [].
Proof.
  intros Hp. induction objs as [|x objs IH]; simpl; [done|]. by rewrite Hp.
Qed.

(** C9: for the empty query, [triage_raw] puts the objects whose string is
    empty in [exact_matches] and all the others in
    [begins_with_case_sensitive_matches], in the order of the input; the
    other three arrays are empty.  (Lower-casing gives the empty string
    for the empty string only.) *)
Theorem triage_raw_empty_query objs get_item
    (Hlower : ∀ s, toLowerCase U s = [] ↔ s = []) :
  triage_raw U [] objs get_item =
  Some {| exact_matches := List.filter (λ x, bool_decide (get_item x = [])) objs;
          begins_with_case_sensitive_matches :=
            List.filter (λ x, negb (bool_decide (get_item x = []))) objs;
          begins_with_case_insensitive_matches := [];
          word_boundary_matches := [];
          no_matches := [] |}.
Proof.
  rewrite triage_raw_tiers. unfold in_tier, tier_of. simpl.
  f_equal. f_equal.
  - apply filter_ext. intros x.
    repeat case_bool_decide; try done; exfalso; naive_solver.
  - apply filter_ext. intros x.
    repeat case_bool_decide; try done; exfalso; naive_solver.
  - apply filter_none. intros x. by repeat case_bool_decide.
  - apply filter_none. intros x. by repeat case_bool_decide.
  - apply filter_none. intros x. by repeat case_bool_decide.
Qed.


End TriageClaims.

(** ** UTF-16 and normalisation *)

Lemma code_points_cons (u : N) (s : jsstring) :
  is_lead u = false → code_points (u :: s) = u :: code_points s.
Proof. intros Hu. simpl. destruct s; [done|]. by rewrite Hu. Qed.

Lemma scalar_not_lead (c : N) :
  is_scalar c = true → (c <? 0x10000) = true → is_lead c = false.
Proof. unfold is_scalar, is_lead. lia. Qed.

Lemma utf16_of_pair (c : N) :
  is_scalar c = true → (c <? 0x10000) = false →
  is_lead (0xD800 + (c - 0x10000) / 0x400) = true ∧
  is_trail (0xDC00 + (c - 0x10000) mod 0x400) = true ∧
  0x10000 + (0xD800 + (c - 0x10000) / 0x400 - 0xD800) * 0x400 +
    (0xDC00 + (c - 0x10000) mod 0x400 - 0xDC00) = c.
Proof.
  unfold is_scalar, is_lead, is_trail. intros Hs Hc.
  pose proof (N.div_mod (c - 0x10000) 0x400 ltac:(done)) as Hdm.
  pose proof (N.mod_lt (c - 0x10000) 0x400 ltac:(done)) as Hlt.
  assert ((c - 0x10000) / 0x400 < 0x400) as Hq.
  { apply N.Div0.div_lt_upper_bound. lia. }
  generalize dependent ((c - 0x10000) / 0x400). intros q Hdm Hq.
  generalize dependent ((c - 0x10000) mod 0x400). intros r Hdm Hr.
  rewrite !andb_true_iff, !N.leb_le. lia.
Qed.

(** Scalar values survive the encoding to code units and back. *)
Lemma code_points_utf16 (l : list N) :
  Forall (λ c, is_scalar c = true) l → code_points (utf16 l) = l.
Proof.
  induction 1 as [|c l Hc _ IH]; [done|].
  unfold utf16 in *. simpl flat_map. unfold utf16_of at 1.
  destruct (c <? 0x10000) eqn:Hlt.
  - change ([c] ++ ?r) with (c :: r).
    rewrite code_points_cons by by apply scalar_not_lead. by rewrite IH.
  - destruct (utf16_of_pair c Hc Hlt) as (Hl & Ht & Heq).
    change ([?a; ?b] ++ ?r) with (a :: b :: r).
    change (code_points (?a :: ?b :: ?r))
      with (if is_lead a && is_trail b
            then (0x10000 + (a - 0xD800) * 0x400 + (b - 0xDC00)) :: code_points r
            else a :: code_points (b :: r)).
    rewrite Hl, Ht. simpl andb. cbv iota. rewrite Heq, IH. done.
Qed.

Lemma code_points_plain (s : jsstring) :
  Forall (λ u, is_lead u = false) s → code_points s = s.
Proof.
  induction 1 as [|u s Hu _ IH]; [done|]. by rewrite code_points_cons, IH.
Qed.

Lemma utf16_plain (l : list N) :
  Forall (λ c, (c <? 0x10000) = true) l → utf16 l = l.
Proof.
  induction 1 as [|c l Hc _ IH]; [done|].
  unfold utf16 in *. simpl. unfold utf16_of at 1. by rewrite Hc, IH.
Qed.

Section NormalizerFacts.
Context (U : Unicode).

Lemma reorder_insert_perm c l : reorder_insert U c l ≡ₚ c :: l.
Proof.
  induction l as [|d l IH]; simpl; [done|].
  destruct (_ && _); [|done]. rewrite IH. apply perm_swap.
Qed.

Lemma canonical_order_perm l : canonical_order U l ≡ₚ l.
Proof.
  induction l as [|c l IH]; simpl; [done|].
  rewrite reorder_insert_perm. by constructor.
Qed.

(** A sequence of starters is in canonical order. *)
Lemma canonical_order_starters l :
  Forall (λ c, combining_class U c = 0) l → canonical_order U l = l.
Proof.
  induction 1 as [|c l Hc Hl IH]; [done|].
  simpl. rewrite IH. destruct Hl as [|d l Hd _]; [done|].
  simpl. by rewrite Hd.
Qed.

Lemma flat_map_fixed (f : N → list N) l :
  Forall (λ c, f c = [c]) l → flat_map f l = l.
Proof. induction 1 as [|c l Hc _ IH]; simpl; [done|]. by rewrite Hc, IH. Qed.

Lemma filter_all (p : N → bool) l :
  Forall (λ c, p c = true) l → List.filter p l = l.
Proof. induction 1 as [|c l Hc _ IH]; simpl; [done|]. by rewrite Hc, IH. Qed.

Lemma elem_of_stripped l d :
  d ∈ stripped U l → is_mark U d = false ∧ ∃ c, c ∈ l ∧ d ∈ decomposition U c.
Proof.
  unfold stripped. rewrite elem_of_filter, canonical_order_perm, negb_true_iff.
  intros [Hd ?]. split; [done|].
  apply list_elem_of_In, in_flat_map in Hd as (c & Hc & Hd).
  exists c. by rewrite !list_elem_of_In.
Qed.

Context (HU : UnicodeData U).

Lemma stripped_scalar l :
  Forall (λ c, is_scalar c = true) l → Forall (λ c, is_scalar c = true) (stripped U l).
Proof.
  rewrite !Forall_forall. intros Hl d (_ & c & Hc & Hd)%elem_of_stripped.
  eapply decomposition_scalar; eauto.
Qed.

Lemma normalized_scalar l :
  Forall (λ c, is_scalar c = true) l →
  Forall (λ c, is_scalar c = true) (canonical_order U (flat_map (decomposition U) l)).
Proof.
  rewrite !Forall_forall. intros Hl d. rewrite canonical_order_perm.
  intros (c & Hc & Hd)%list_elem_of_In%in_flat_map.
  apply list_elem_of_In in Hc, Hd. eapply decomposition_scalar; eauto.
Qed.

(** What is left is decomposed, in canonical order and free of marks. *)
Lemma stripped_stripped l : stripped U (stripped U l) = stripped U l.
Proof.
  unfold stripped at 1.
  rewrite flat_map_fixed, canonical_order_starters, filter_all; [done|..];
    apply Forall_forall; intros d (Hm & c & _ & Hd)%elem_of_stripped.
  - by rewrite Hm.
  - destruct (N.eq_dec (combining_class U d) 0) as [|Hne]; [done|].
    apply (combining_is_mark U HU) in Hne. congruence.
  - eapply decomposition_full; eauto.
Qed.

(** On a well-formed string the two steps of [remove_diacritics] compose
    on code points. *)
Lemma remove_diacritics_code_points s :
  Forall (λ c, is_scalar c = true) (code_points s) →
  remove_diacritics U s = utf16 (stripped U (code_points s)).
Proof.
  intros Hs. unfold remove_diacritics, replace_unicode_marks, normalize_NFKD.
  rewrite code_points_utf16 by by apply normalized_scalar. done.
Qed.

End NormalizerFacts.

(** ** The table [basic] *)

Lemma basic_UnicodeData : UnicodeData basic.
Proof.
  split.
  - intros c d. cbn [decomposition basic].
    destruct (N.eqb_spec c 0xE9); [|destruct (N.eqb_spec c 0xE7);
      [|destruct (N.eqb_spec c 0x1D15E)]];
      rewrite ?elem_of_cons, elem_of_nil; intros H;
      destruct_or!; subst; try done.
    apply N.eqb_neq in n, n0, n1. by rewrite n, n0, n1.
  - intros c. cbn [combining_class is_mark basic].
    destruct (N.eqb_spec c 0x301) as [->|_]; [intros _; reflexivity|].
    destruct (N.eqb_spec c 0x327) as [->|_]; [intros _; reflexivity|].
    destruct (N.eqb_spec c 0x1D165) as [->|_]; [intros _; reflexivity|]. done.
  - intros c d Hc. cbn [decomposition basic].
    destruct (N.eqb_spec c 0xE9); [|destruct (N.eqb_spec c 0xE7);
      [|destruct (N.eqb_spec c 0x1D15E)]];
      rewrite ?elem_of_cons, elem_of_nil; intros H;
      destruct_or!; subst; done.
Qed.

Lemma basic_BasicLatin : BasicLatin basic.
Proof.
  split.
  - intros s Hs. cbn [toLowerCase basic]. apply map_ext_Forall.
    eapply Forall_impl; [exact Hs|]. intros c Hc. cbv beta in *. unfold ascii_lower.
    destruct (_ && _) eqn:H1; [done|].
    destruct ((0xC0 <=? c) && _ && _) eqn:H2; [|done].
    apply andb_true_iff in H2 as [H2 _]. apply andb_true_iff in H2 as [H2 _].
    apply N.leb_le in H2. lia.
  - intros c Hc. cbn [decomposition basic].
    destruct (N.eqb_spec c 0xE9); [lia|]. destruct (N.eqb_spec c 0xE7); [lia|].
    destruct (N.eqb_spec c 0x1D15E); [lia|]. done.
  - intros c Hc. cbn [combining_class basic].
    destruct (N.eqb_spec c 0x301); [lia|]. destruct (N.eqb_spec c 0x327); [lia|].
    destruct (N.eqb_spec c 0x1D165); [lia|]. done.
  - intros c Hc. cbn [is_mark basic]. lia.
Qed.

Lemma basic_toLowerCase_nil (s : jsstring) : toLowerCase basic s = [] ↔ s = [].
Proof. cbn [toLowerCase basic]. split; [apply map_eq_nil | by intros ->]. Qed.

(** ** [remove_diacritics] *)

Section RemoveDiacritics.
Context (U : Unicode).

(** C8 (as amended): removing diacritics twice is the same as removing
    them once, for every well-formed string (a string with no unpaired
    surrogate), where [remove_diacritics] decomposes the string (NFKD) and
    deletes the combining marks. *)
Theorem remove_diacritics_idempotent (s : jsstring)
    (HU : UnicodeData U) (Hs : well_formed s = true) :
  remove_diacritics U (remove_diacritics U s) = remove_diacritics U s.
Proof.
  assert (Hcps : Forall (λ c, is_scalar c = true) (code_points s)).
  { unfold well_formed in Hs. apply andb_true_iff in Hs as [_ Hs].
    apply Forall_forall. intros c Hc%list_elem_of_In.
    by apply (proj1 (forallb_forall _ _) Hs). }
  rewrite (remove_diacritics_code_points U HU s Hcps).
  rewrite remove_diacritics_code_points; [|done|];
    rewrite code_points_utf16 by by apply stripped_scalar.
  - by rewrite stripped_stripped.
  - by apply stripped_scalar.
Qed.

(** An unpaired lead surrogate and an unpaired trail surrogate with a mark
    between them: the first call deletes the mark, the surrogates now form
    the pair of U+1D165 (a combining mark), and the second call deletes
    it.  This holds for every table that has U+0301 and U+1D165 as marks
    without a decomposition and the surrogates as inert code points, as
    the Unicode Character Database does. *)
Lemma remove_diacritics_joins_surrogates :
  is_mark U 0x301 = true → is_mark U 0x1D165 = true →
  is_mark U 0xD834 = false → is_mark U 0xDD65 = false →
  combining_class U 0xD834 = 0 → combining_class U 0xDD65 = 0 →
  decomposition U 0x301 = [0x301] → decomposition U 0x1D165 = [0x1D165] →
  decomposition U 0xD834 = [0xD834] → decomposition U 0xDD65 = [0xDD65] →
  remove_diacritics U [0xD834; 0x301; 0xDD65] = [0xD834; 0xDD65] ∧
  remove_diacritics U [0xD834; 0xDD65] = [].
Proof.
  intros M1 M2 M3 M4 C1 C2 D1 D2 D3 D4.
  unfold remove_diacritics, normalize_NFKD, replace_unicode_marks. split.
  - change (code_points [0xD834; 0x301; 0xDD65]) with [0xD834; 0x301; 0xDD65].
    cbn [flat_map]. rewrite D1, D3, D4. cbn [app canonical_order fold_right reorder_insert].
    rewrite C2. cbn [N.ltb N.compare andb reorder_insert]. rewrite C1.
    rewrite (proj2 (N.ltb_ge _ 0)) by lia. rewrite andb_false_r.
    change (code_points (utf16 [0xD834; 0x301; 0xDD65])) with [0xD834; 0x301; 0xDD65].
    cbn [List.filter]. rewrite M1, M3, M4. reflexivity.
  - change (code_points [0xD834; 0xDD65]) with [0x1D165].
    cbn [flat_map]. rewrite D2. cbn [app canonical_order fold_right reorder_insert].
    change (code_points (utf16 [0x1D165])) with [0x1D165].
    cbn [List.filter]. rewrite M2. reflexivity.
Qed.

Context (HL : BasicLatin U).

Lemma remove_diacritics_ascii (s : jsstring) :
  Forall (λ c, c < 128) s → remove_diacritics U s = s.
Proof.
  intros Hs. unfold remove_diacritics, normalize_NFKD, replace_unicode_marks.
  assert (Hplain : code_points s = s).
  { apply code_points_plain. eapply Forall_impl; [exact Hs|].
    intros c Hc. cbv beta in *. unfold is_lead. lia. }
  assert (Hunits : utf16 s = s).
  { apply utf16_plain. eapply Forall_impl; [exact Hs|]. intros c Hc. cbv beta in *. lia. }
  rewrite Hplain, flat_map_fixed, canonical_order_starters, Hunits, Hplain, filter_all;
    [done|..]; (eapply Forall_impl; [exact Hs|]); intros c Hc; cbv beta in *.
  - by rewrite (mark_ascii U HL).
  - by apply (combining_ascii U HL).
  - by apply (decomposition_ascii U HL).
Qed.

Lemma ascii_lower_ascii (s : jsstring) :
  Forall (λ c, c < 128) s → Forall (λ c, c < 128) (map ascii_lower s).
Proof.
  intros Hs. apply Forall_map. eapply Forall_impl; [exact Hs|].
  intros c Hc. unfold ascii_lower. cbv beta in *. destruct (_ && _) eqn:H; lia.
Qed.

(** The source string of [query_matches_string] after its two
    assignments, for a string of the Basic Latin block. *)
Lemma normalised_ascii (s : jsstring) :
  Forall (λ c, c < 128) s →
  remove_diacritics U (toLowerCase U s) = map ascii_lower s.
Proof.
  intros Hs. rewrite (lower_ascii U HL s Hs).
  by apply remove_diacritics_ascii, ascii_lower_ascii.
Qed.

End RemoveDiacritics.

(** ** [query_matches_string] *)

Ltac basic_latin := unfold str; simpl; repeat constructor.

Section QueryMatchesString.
Context (U : Unicode).

Lemma covering_spec (queries source_arr : list jsstring) :
  forallb (λ query, existsb (λ source, startsWith source query) source_arr) queries = true ↔
  Forall (λ query, Exists (λ source, query `prefix_of` source) source_arr) queries.
Proof.
  induction queries as [|q queries IH]; simpl.
  - split; [constructor | done].
  - rewrite andb_true_iff, Forall_cons, IH.
    assert (existsb (λ source, startsWith source q) source_arr = true ↔
            Exists (λ source, q `prefix_of` source) source_arr) as ->; [|done].
    clear. induction source_arr as [|t source_arr IH]; simpl.
    + split; [done | by intros ?%Exists_nil].
    + by rewrite orb_true_iff, Exists_cons, IH, startsWith_prefix.
Qed.

(** C3: for a query that contains the separator, [query_matches_string]
    is true exactly when every token of the query is a prefix of some
    token of the source, the source being lower-cased and stripped of
    diacritics before both strings are split on the separator.  The order
    of the tokens does not matter and one token of the source may serve
    several tokens of the query.  In particular "ab c" matches
    "ab cd ef" and "b cd" does not (separator " "). *)
Theorem query_matches_string_tokens (query source split_char : jsstring)
    (Hsep : includes query split_char = true) :
  (query_matches_string U query source split_char = true ↔
   Forall (λ token,
             Exists (λ source_token, token `prefix_of` source_token)
                    (split (remove_diacritics U (toLowerCase U source)) split_char))
          (split query split_char)) ∧
  (BasicLatin U →
   query_matches_string U (str "ab c") (str "ab cd ef") (str " ") = true ∧
   query_matches_string U (str "b cd") (str "ab cd ef") (str " ") = false).
Proof.
  split.
  - unfold query_matches_string. rewrite Hsep. simpl negb. cbv iota.
    apply covering_spec.
  - intros HL. unfold query_matches_string.
    rewrite (normalised_ascii U HL (str "ab cd ef")) by basic_latin.
    split; reflexivity.
Qed.

(** C4 (as amended): for a query that does not contain the separator,
    [query_matches_string] is true exactly when the source, lower-cased
    and stripped of diacritics, contains the query as it was given (the
    function does not lower-case the query) as a contiguous substring.
    "ab" matches "xaby" and does not match "xy" (separator "_"). *)
Theorem query_matches_string_single_token (query source split_char : jsstring)
    (Hsep : includes query split_char = false) :
  (query_matches_string U query source split_char = true ↔
   ∃ before after,
     remove_diacritics U (toLowerCase U source) = before ++ query ++ after) ∧
  (BasicLatin U →
   query_matches_string U (str "ab") (str "xaby") (str "_") = true ∧
   query_matches_string U (str "ab") (str "xy") (str "_") = false).
Proof.
  split.
  - unfold query_matches_string. rewrite Hsep. simpl negb. cbv iota.
    apply includes_infix.
  - intros HL. unfold query_matches_string.
    rewrite (normalised_ascii U HL (str "xaby")) by basic_latin.
    rewrite (normalised_ascii U HL (str "xy")) by basic_latin.
    split; reflexivity.
Qed.

(** The query is compared as it is: an upper-case query does not match
    the source it would match after lower-casing, on every table that
    treats the Basic Latin block as Unicode does. *)
Lemma query_matches_string_upper_case_query :
  BasicLatin U →
  includes (str "AB") (str "_") = false ∧
  query_matches_string U (str "AB") (str "xaby") (str "_") = false ∧
  includes (toLowerCase U (str "xaby")) (toLowerCase U (str "AB")) = true.
Proof.
  intros HL. split; [reflexivity|]. split.
  - unfold query_matches_string.
    rewrite (normalised_ascii U HL (str "xaby")) by basic_latin. reflexivity.
  - rewrite !(lower_ascii U HL) by basic_latin. reflexivity.
Qed.

End QueryMatchesString.

(** C4, as the specification states it, fails in both directions.  The
    query "AB" does not contain the separator "_", the lower-cased source
    "xaby" contains the lower-cased query "ab", and the function returns
    false: it compares the query as it is.  The query "e" is not contained in
    the lower-cased source "e-acute" (U+00E9), and the function returns true:
    it also strips the diacritics of the source. *)
Lemma query_matches_string_not_lowercased :
  (includes (str "AB") (str "_") = false ∧
   ¬ (query_matches_string basic (str "AB") (str "xaby") (str "_") = true ↔
      includes (toLowerCase basic (str "xaby")) (toLowerCase basic (str "AB")) = true)) ∧
  (includes (str "e") (str "_") = false ∧
   ¬ (query_matches_string basic (str "e") [0xE9] (str "_") = true ↔
      includes (toLowerCase basic [0xE9]) (toLowerCase basic (str "e")) = true)).
Proof.
  split; (split; [reflexivity|]).
  - intros [_ H].
    assert (query_matches_string basic (str "AB") (str "xaby") (str "_") = false) as Hf
      by reflexivity.
    rewrite H in Hf; [discriminate | reflexivity].
  - intros [H _].
    assert (includes (toLowerCase basic [0xE9]) (toLowerCase basic (str "e")) = false) as Hf
      by reflexivity.
    rewrite H in Hf; [discriminate | reflexivity].
Qed.

(** C8, as the specification states it (for every string), fails: on the
    string of an unpaired lead surrogate, a combining acute accent and an
    unpaired trail surrogate, the first call leaves the surrogate pair of
    U+1D165 and the second call deletes it. *)
Lemma remove_diacritics_not_idempotent :
  remove_diacritics basic [0xD834; 0x301; 0xDD65] = [0xD834; 0xDD65] ∧
  remove_diacritics basic (remove_diacritics basic [0xD834; 0x301; 0xDD65]) = [] ∧
  remove_diacritics basic (remove_diacritics basic [0xD834; 0x301; 0xDD65])
    ≠ remove_diacritics basic [0xD834; 0x301; 0xDD65].
Proof. split; [reflexivity|]. split; [reflexivity|]. discriminate. Qed.

(** ** [sort_emojis] *)

Lemma Forall_of_sublist {A : Type} (P : A → Prop) (l k : list A) :
  l `sublist_of` k → Forall P k → Forall P l.
Proof.
  induction 1 as [|x l k _ IH|x l k _ IH]; intros Hk; [done|..];
    apply Forall_cons in Hk as [Hx Hk]; [constructor|]; auto.
Qed.

Section SortEmojisFacts.
Context (U : Unicode) {T : Type} (emoji : T → Emoji).
Implicit Types (objs emojis : list T) (names : gset (list N)) (query : jsstring).

Lemma prioritise_realm_emojis_perm emojis :
  prioritise_realm_emojis emoji emojis ≡ₚ emojis.
Proof. apply filter_split. Qed.

(** The list before the last loop: the function gets that far, and the
    list is made of the perfect matches followed by objects that are not
    perfect matches. *)
Lemma candidates_total query objs :
  ∃ others_ranked,
    sorted_results_with_possible_duplicates U emoji query objs =
      Some (perfect_emoji_matches emoji query objs ++ others_ranked) ∧
    others_ranked ≡ₚ without_perfect_matches emoji query objs.
Proof.
  unfold sorted_results_with_possible_duplicates.
  destruct (triage_total U query (others U emoji query objs)
              (λ x, emoji_name (emoji x)) None) as (res & -> & Hres).
  eexists. split; [done|].
  rewrite !prioritise_realm_emojis_perm, Hres.
  unfold popular_emoji_matches, others. apply filter_split.
Qed.

Lemma candidates_perm query objs emojis :
  sorted_results_with_possible_duplicates U emoji query objs = Some emojis →
  emojis ≡ₚ objs.
Proof.
  destruct (candidates_total query objs) as (k & -> & Hk).
  intros [= <-]. rewrite Hk. apply filter_split.
Qed.

Lemma realm_emoji_names_spec objs name :
  name ∈ realm_emoji_names emoji objs ↔
  ∃ o, o ∈ objs ∧ is_realm_emoji (emoji o) = true ∧ emoji_name (emoji o) = name.
Proof.
  unfold realm_emoji_names. rewrite elem_of_list_to_set, list_elem_of_In, in_map_iff.
  split.
  - intros (o & <- & Ho). apply filter_In in Ho as [Ho Hr].
    exists o. by rewrite list_elem_of_In.
  - intros (o & Ho & Hr & <-). exists o. split; [done|].
    apply filter_In. by rewrite <- list_elem_of_In.
Qed.

(** One iteration of the last loop. *)
Lemma unique_body_step names st e :
  ∃ kept, (unique_body emoji names st e).2 = st.2 ++ kept ∧
    match emoji e with
    | CustomEmoji _ _ => kept = [e] ∧ (unique_body emoji names st e).1 = st.1
    | UnicodeEmoji name code =>
        (code ∈ st.1 ∨ name ∈ names →
           kept = [] ∧ (unique_body emoji names st e).1 = st.1) ∧
        (¬ (code ∈ st.1 ∨ name ∈ names) →
           kept = [e] ∧ (unique_body emoji names st e).1 = {[code]} ∪ st.1)
    end.
Proof.
  destruct st as [codes results]. unfold unique_body.
  destruct (emoji e) as [name rt|name code]; simpl.
  - by exists [e].
  - do 2 case_bool_decide; simpl.
    + exists []. rewrite app_nil_r. naive_solver.
    + exists []. rewrite app_nil_r. naive_solver.
    + exists []. rewrite app_nil_r. naive_solver.
    + exists [e]. naive_solver.
Qed.

(** The loop only appends, and appends objects of its input in order. *)
Lemma unique_extends names emojis st :
  ∃ kept, (fold_left (unique_body emoji names) emojis st).2 = st.2 ++ kept ∧
          kept `sublist_of` emojis.
Proof.
  revert st. induction emojis as [|e emojis IH]; intros st; simpl.
  - exists []. by rewrite app_nil_r.
  - destruct (IH (unique_body emoji names st e)) as (kept & -> & Hkept).
    destruct (unique_body_step names st e) as (k & -> & Hk).
    exists (k ++ kept). rewrite app_assoc. split; [done|].
    assert (k = [] ∨ k = [e]) as [-> | ->].
    { destruct (emoji e) as [?|name code]; [naive_solver|].
      destruct (decide (code ∈ st.1 ∨ name ∈ names)); naive_solver. }
    + by constructor.
    + by constructor.
Qed.

(** The set of the loop holds the codes of the Unicode emojis that the
    loop has kept. *)
Lemma unique_codes names emojis code :
  code ∈ (fold_left (unique_body emoji names) emojis (∅, [])).1 ↔
  ∃ k n, k ∈ (fold_left (unique_body emoji names) emojis (∅, [])).2 ∧
         emoji k = UnicodeEmoji n code.
Proof.
  induction emojis as [|e emojis IH] using rev_ind; simpl.
  - split; [by intros ?%elem_of_empty | by intros (k & n & ?%elem_of_nil & _)].
  - rewrite fold_left_app. simpl.
    destruct (unique_body_step names
                (fold_left (unique_body emoji names) emojis (∅, [])) e)
      as (kept & -> & Hkept).
    destruct (emoji e) as [name rt|name c] eqn:He.
    + destruct Hkept as [-> ->]. rewrite IH. split.
      * intros (k & n & Hk & Hn). exists k, n. split; [|done].
        apply elem_of_app. by left.
      * intros (k & n & [Hk | ->%list_elem_of_singleton]%elem_of_app & Hn);
          [by exists k, n | congruence].
    + destruct Hkept as [Hdrop Hkeep].
      destruct (decide (c ∈ (fold_left (unique_body emoji names) emojis (∅, [])).1
                        ∨ name ∈ names)) as [Hd|Hd].
      * destruct (Hdrop Hd) as [-> ->]. by rewrite app_nil_r.
      * destruct (Hkeep Hd) as [-> ->]. rewrite elem_of_union, elem_of_singleton, IH.
        split.
        -- intros [-> | (k & n & Hk & Hn)].
           ++ exists e, name. split; [|done]. apply elem_of_app. right. by constructor.
           ++ exists k, n. split; [|done]. apply elem_of_app. by left.
        -- intros (k & n & [Hk | ->%list_elem_of_singleton]%elem_of_app & Hn).
           ++ right. by exists k, n.
           ++ left. congruence.
Qed.

End SortEmojisFacts.

Section SortEmojisClaims.
Context (U : Unicode) {T : Type} (emoji : T → Emoji).
Implicit Types (objs emojis : list T) (query : jsstring).

(** C5: in the output of [sort_emojis], the items whose name equals the
    query (spaces replaced by underscores, then lower-cased) come before
    all the items whose name differs from it, whatever their popularity
    and whether they are custom or not: the output is the perfect matches
    that the last loop keeps, followed by items that are not perfect
    matches. *)
Theorem sort_emojis_perfect_first objs query :
  ∃ perfect other,
    sort_emojis U emoji objs query = Some (perfect ++ other) ∧
    perfect = sorted_unique_results emoji (realm_emoji_names emoji objs)
                (perfect_emoji_matches emoji (emoji_query U query) objs) ∧
    Forall (λ x, emoji_name (emoji x) = emoji_query U query) perfect ∧
    Forall (λ x, emoji_name (emoji x) ≠ emoji_query U query) other.
Proof.
  unfold sort_emojis.
  destruct (candidates_total U emoji (emoji_query U query) objs) as (k & -> & Hk).
  simpl. unfold sorted_unique_results. rewrite fold_left_app.
  set (names := realm_emoji_names emoji objs).
  set (perfect := perfect_emoji_matches emoji (emoji_query U query) objs).
  destruct (unique_extends emoji names k
              (fold_left (unique_body emoji names) perfect (∅, [])))
    as (other & -> & Hother).
  eexists _, other. split; [done|]. split; [done|]. split.
  - destruct (unique_extends emoji names perfect (∅, [])) as (kept & -> & Hkept).
    simpl. eapply Forall_of_sublist; [exact Hkept|].
    eapply Forall_impl; [apply filter_Forall|].
    intros x Hx. by apply bool_decide_eq_true in Hx.
  - eapply Forall_of_sublist; [exact Hother|]. rewrite Hk.
    eapply Forall_impl; [apply filter_Forall|].
    intros x Hx. by apply negb_true_iff, bool_decide_eq_false in Hx.
Qed.

(** C6: the last loop of [sort_emojis] keeps every custom emoji; it drops
    a Unicode emoji exactly when its code is the code of a Unicode emoji
    that the loop kept earlier, or when a custom emoji of the input has
    its name.  For every entry [e] of the ranked list, the output is what
    the loop kept of the entries before [e], then [e] or nothing, then
    some of the entries after [e]. *)
Theorem sort_emojis_unique objs query :
  ∃ emojis,
    sorted_results_with_possible_duplicates U emoji (emoji_query U query) objs
      = Some emojis ∧
    sort_emojis U emoji objs query =
      Some (sorted_unique_results emoji (realm_emoji_names emoji objs) emojis) ∧
    ∀ before e after, emojis = before ++ e :: after →
      ∃ kept kept_after,
        sorted_unique_results emoji (realm_emoji_names emoji objs) emojis =
          sorted_unique_results emoji (realm_emoji_names emoji objs) before ++
          kept ++ kept_after ∧
        kept_after `sublist_of` after ∧
        match emoji e with
        | CustomEmoji _ _ => kept = [e]
        | UnicodeEmoji name code =>
            let dropped :=
              (∃ k n, k ∈ sorted_unique_results emoji (realm_emoji_names emoji objs) before ∧
                      emoji k = UnicodeEmoji n code) ∨
              (∃ o, o ∈ objs ∧ is_realm_emoji (emoji o) = true ∧
                    emoji_name (emoji o) = name) in
            (dropped → kept = []) ∧ (¬ dropped → kept = [e])
        end.
Proof.
  destruct (candidates_total U emoji (emoji_query U query) objs) as (k & Hk & _).
  eexists. split; [exact Hk|]. split.
  { unfold sort_emojis. by rewrite Hk. }
  intros before e after ->. unfold sorted_unique_results.
  set (names := realm_emoji_names emoji objs).
  rewrite fold_left_app. simpl.
  set (st := fold_left (unique_body emoji names) before (∅, [])).
  destruct (unique_extends emoji names after (unique_body emoji names st e))
    as (kept_after & -> & Hafter).
  destruct (unique_body_step emoji names st e) as (kept & -> & Hkept).
  exists kept, kept_after. rewrite app_assoc. split; [done|]. split; [done|].
  destruct (emoji e) as [name rt|name code]; [by destruct Hkept|].
  destruct Hkept as [Hdrop Hkeep]. subst st.
  rewrite unique_codes in Hdrop, Hkeep.
  unfold names in Hdrop, Hkeep. rewrite realm_emoji_names_spec in Hdrop, Hkeep.
  simpl. split; intros H; [by apply Hdrop | by apply Hkeep].
Qed.

(** C10: the output of [sort_emojis] holds only elements of the input and
    no occurrence of the input twice: the list that the function ranks is
    a permutation of the input, and the last loop returns a sublist of
    it. *)
Theorem sort_emojis_sublist objs query :
  ∃ emojis out,
    sorted_results_with_possible_duplicates U emoji (emoji_query U query) objs
      = Some emojis ∧
    sort_emojis U emoji objs query = Some out ∧
    emojis ≡ₚ objs ∧
    out `sublist_of` emojis ∧
    (∀ x, x ∈ out → x ∈ objs) ∧
    (NoDup objs → NoDup out).
Proof.
  destruct (candidates_total U emoji (emoji_query U query) objs) as (k & Hk & _).
  pose proof (candidates_perm U emoji _ _ _ Hk) as Hperm.
  eexists _, _. split; [exact Hk|]. split.
  { unfold sort_emojis. by rewrite Hk. }
  split; [done|].
  unfold sorted_unique_results.
  destruct (unique_extends emoji (realm_emoji_names emoji objs)
              (perfect_emoji_matches emoji (emoji_query U query) objs ++ k) (∅, []))
    as (kept & -> & Hkept).
  simpl. split; [exact Hkept|]. split.
  - intros x Hx. rewrite <- Hperm. by eapply elem_of_sublist.
  - intros Hnd. eapply sublist_NoDup; [|exact Hkept]. by rewrite Hperm.
Qed.

End SortEmojisClaims.

(** ** The theorems at concrete inputs, on the table [basic] *)



(** C2 at the query "king". *)
Lemma triage_raw_priority_witness :
  toLowerCase basic [] = [] ∧
  ∃ r, triage_raw basic (str "king")
         [str "King Hamlet"; str "Cordelia"; str "the king"; str "kingdom"] id = Some r ∧
       ∀ t, bucket r t =
            in_tier (spec_tier basic (str "king")) id t
              [str "King Hamlet"; str "Cordelia"; str "the king"; str "kingdom"].
Proof.
  split; [reflexivity|].
  exact (proj1 (triage_raw_priority basic (str "king")
                  [str "King Hamlet"; str "Cordelia"; str "the king"; str "kingdom"]
                  id eq_refl)).
Defined.

(** C9 at three strings, one of them empty. *)
Lemma triage_raw_empty_query_witness :
  triage_raw basic [] [str "a"; []; str "B"] id =
  Some {| exact_matches := [[]];
          begins_with_case_sensitive_matches := [str "a"; str "B"];
          begins_with_case_insensitive_matches := [];
          word_boundary_matches := [];
          no_matches := [] |}.
Proof.
  exact (triage_raw_empty_query basic [str "a"; []; str "B"] id basic_toLowerCase_nil).
Defined.

(** C3 at the query "e cd a" and the source "Ab Cd Ef": the tokens of the
    query match in another order than that of the source. *)
Lemma query_matches_string_tokens_witness :
  includes (str "e cd a") (str " ") = true ∧
  Forall (λ token,
            Exists (λ source_token, token `prefix_of` source_token)
                   (split (remove_diacritics basic (toLowerCase basic (str "Ab Cd Ef")))
                          (str " ")))
         (split (str "e cd a") (str " ")) ∧
  query_matches_string basic (str "ab c") (str "ab cd ef") (str " ") = true ∧
  query_matches_string basic (str "b cd") (str "ab cd ef") (str " ") = false.
Proof.
  split; [reflexivity|].
  pose proof (query_matches_string_tokens basic (str "e cd a") (str "Ab Cd Ef") (str " ")
                eq_refl) as [Hiff Hex].
  split; [by apply Hiff | exact (Hex basic_BasicLatin)].
Defined.

(** C4 (as amended) at the query "ham" and the source "King Hamlet". *)
Lemma query_matches_string_single_token_witness :
  includes (str "ham") (str "_") = false ∧
  (∃ before after,
     remove_diacritics basic (toLowerCase basic (str "King Hamlet"))
     = before ++ str "ham" ++ after) ∧
  query_matches_string basic (str "ab") (str "xaby") (str "_") = true ∧
  query_matches_string basic (str "ab") (str "xy") (str "_") = false.
Proof.
  split; [reflexivity|].
  pose proof (query_matches_string_single_token basic (str "ham") (str "King Hamlet")
                (str "_") eq_refl) as [Hiff Hex].
  split; [by apply Hiff | exact (Hex basic_BasicLatin)].
Defined.

(** C8 (as amended) at the string "caf" followed by e-acute (U+00E9). *)
Lemma remove_diacritics_idempotent_witness :
  well_formed [0x63; 0x61; 0x66; 0xE9] = true ∧
  remove_diacritics basic [0x63; 0x61; 0x66; 0xE9] = [0x63; 0x61; 0x66; 0x65] ∧
  remove_diacritics basic (remove_diacritics basic [0x63; 0x61; 0x66; 0xE9])
  = remove_diacritics basic [0x63; 0x61; 0x66; 0xE9].
Proof.
  split; [reflexivity|]. split; [reflexivity|].
  exact (remove_diacritics_idempotent basic [0x63; 0x61; 0x66; 0xE9]
           basic_UnicodeData eq_refl).
Defined.


(** * Further properties of the functions of the file *)

(** ** [split] on a separator of one code unit *)

Lemma split_scan_nonempty (sep : jsstring) (k : nat) (cur s : jsstring) :
  split_scan sep k cur s ≠ [].
Proof. by destruct (split_scan_cons sep k cur s) as (t & ts & ->). Qed.

Lemma split_nonempty (s sep : jsstring) : s ≠ [] ∨ sep ≠ [] → split s sep ≠ [].
Proof.
  destruct sep as [|d sep]; simpl.
  - intros [Hs|?]; [|done]. by destruct s.
  - intros _. apply split_scan_nonempty.
Qed.

(** A string that does not contain the separator is one token. *)
Lemma split_scan_free (sep cur s : jsstring) :
  includes s sep = false → split_scan sep 0 cur s = [cur ++ s].
Proof.
  revert cur. induction s as [|c s IH]; intros cur Hs; simpl.
  - by rewrite app_nil_r.
  - simpl in Hs. apply orb_false_iff in Hs as [Hstart Hs].
    rewrite Hstart, IH by done. by rewrite <- app_assoc.
Qed.

Lemma split_free (s sep : jsstring) :
  includes s sep = false → split s sep = [s].
Proof.
  intros Hs. destruct sep as [|d sep]; [by destruct s|].
  simpl. by rewrite split_scan_free.
Qed.

Lemma includes_single (c : N) (s : jsstring) :
  includes s [c] = false ↔ c ∉ s.
Proof.
  induction s as [|d s IH]; simpl.
  - split; [intros _ ?%elem_of_nil; done | done].
  - rewrite orb_false_iff, andb_true_r, IH, not_elem_of_cons, N.eqb_neq. done.
Qed.

(** At a separator of one code unit the tokens of the two sides follow each
    other. *)
Lemma split_scan_app (c : N) (cur a b : jsstring) :
  split_scan [c] 0 cur (a ++ c :: b) = split_scan [c] 0 cur a ++ split_scan [c] 0 [] b.
Proof.
  revert cur. induction a as [|d a IH]; intros cur; simpl.
  - by rewrite N.eqb_refl.
  - destruct (c =? d); simpl; by rewrite IH.
Qed.

Lemma split_app (c : N) (a b : jsstring) :
  split (a ++ c :: b) [c] = split a [c] ++ split b [c].
Proof. apply split_scan_app. Qed.

(** The tokens joined with a separator of one code unit that none of them
    contains are found again by [split]. *)
Lemma split_join (c : N) (tokens : list jsstring) :
  tokens ≠ [] → Forall (λ t, c ∉ t) tokens → split (join [c] tokens) [c] = tokens.
Proof.
  induction tokens as [|t tokens IH]; [done|]. intros _ Htokens.
  apply Forall_cons in Htokens as [Ht Htokens].
  destruct tokens as [|t' tokens].
  - simpl join. by apply split_free, includes_single.
  - change (join [c] (t :: t' :: tokens)) with (t ++ c :: join [c] (t' :: tokens)).
    rewrite split_app, IH by done.
    rewrite (split_free t [c]) by by apply includes_single. done.
Qed.

(** A token is a part of the string that was split. *)
Lemma join_infix (sep : jsstring) (parts : list jsstring) (t : jsstring) :
  t ∈ parts → ∃ before after, join sep parts = before ++ t ++ after.
Proof.
  induction parts as [|p parts IH]; [by intros ?%elem_of_nil|].
  intros [-> | Ht]%elem_of_cons.
  - destruct parts as [|p' parts]; simpl.
    + exists [], []. by rewrite app_nil_r.
    + by exists [], (sep ++ join sep (p' :: parts)).
  - destruct (IH Ht) as (before & after & Hj).
    destruct parts as [|p' parts]; [by apply elem_of_nil in Ht|].
    change (join sep (p :: p' :: parts)) with (p ++ sep ++ join sep (p' :: parts)).
    rewrite Hj. exists (p ++ sep ++ before), after. by rewrite <- !app_assoc.
Qed.

Lemma split_infix (s sep t : jsstring) :
  t ∈ split s sep → ∃ before after, s = before ++ t ++ after.
Proof.
  intros Ht. destruct (join_infix sep _ t Ht) as (before & after & H).
  rewrite join_split in H. eauto.
Qed.

(** ** More on [query_matches_string] *)

Section QueryMatchesStringMore.
Context (U : Unicode).
Implicit Types (query source split_char : jsstring).

(** X1: the empty query matches every source, whatever the separator. *)
Theorem query_matches_string_empty_query source split_char :
  query_matches_string U [] source split_char = true.
Proof.
  unfold query_matches_string. destruct split_char as [|c sep]; [done|].
  simpl. apply includes_infix. by eexists [], _.
Qed.

(** X2: a source matches itself: the query that is the source after its
    lower-casing and the removal of its diacritics matches the source, with
    or without the separator in it. *)
Theorem query_matches_string_normalised_source source split_char :
  query_matches_string U (remove_diacritics U (toLowerCase U source)) source split_char
  = true.
Proof.
  unfold query_matches_string.
  set (normal := remove_diacritics U (toLowerCase U source)).
  destruct (includes normal split_char); simpl.
  - apply covering_spec, Forall_forall. intros t Ht.
    apply Exists_exists. by exists t.
  - apply includes_infix. exists [], []. by rewrite app_nil_r.
Qed.

(** X3: with the separator in the query, only the set of the tokens of the
    query counts: a query whose tokens are all among the tokens of a query
    that matches (in any order, repeated or not) matches too. *)
Theorem query_matches_string_fewer_tokens query query' source split_char
    (Hsep : includes query split_char = true)
    (Hsep' : includes query' split_char = true)
    (Htokens : ∀ t, t ∈ split query' split_char → t ∈ split query split_char)
    (Hmatch : query_matches_string U query source split_char = true) :
  query_matches_string U query' source split_char = true.
Proof.
  unfold query_matches_string in *. rewrite Hsep in Hmatch. rewrite Hsep'.
  simpl in *. apply covering_spec in Hmatch. apply covering_spec.
  rewrite Forall_forall in Hmatch. apply Forall_forall. auto.
Qed.

(** X4: a separator typed after a single word turns the search of the word
    anywhere in the source into the search of a word of the source that
    starts with it. *)
Theorem query_matches_string_trailing_separator (word source : jsstring) (c : N)
    (Hword : c ∉ word) :
  query_matches_string U (word ++ [c]) source [c] = true ↔
  ∃ t, t ∈ split (remove_diacritics U (toLowerCase U source)) [c] ∧ word `prefix_of` t.
Proof.
  unfold query_matches_string.
  set (normal := remove_diacritics U (toLowerCase U source)).
  assert (includes (word ++ [c]) [c] = true) as ->.
  { apply includes_infix. exists word, []. done. }
  simpl negb. cbv iota.
  rewrite split_app, (split_free word [c]) by by apply includes_single.
  change ([word] ++ split [] [c]) with [word; []].
  rewrite covering_spec, !Forall_cons, Exists_exists.
  split; [by intros [? _]|]. intros H. split; [done|]. split; [|done].
  destruct (split normal [c]) as [|t ts] eqn:Hts.
  - by apply split_nonempty in Hts; [|right].
  - apply Exists_cons_hd, prefix_nil.
Qed.

(** X5: every token of a query that matches is a part of the source (after
    its lower-casing and the removal of its diacritics). *)
Theorem query_matches_string_tokens_in_source query source split_char
    (Hmatch : query_matches_string U query source split_char = true) :
  ∀ t, t ∈ split query split_char →
    ∃ before after, remove_diacritics U (toLowerCase U source) = before ++ t ++ after.
Proof.
  unfold query_matches_string in Hmatch.
  set (normal := remove_diacritics U (toLowerCase U source)) in *.
  destruct (includes query split_char) eqn:Hsep; simpl in Hmatch.
  - apply covering_spec in Hmatch. rewrite Forall_forall in Hmatch.
    intros t Ht. apply Hmatch, Exists_exists in Ht as (st & Hst & [k ->]).
    apply split_infix in Hst as (before & after & ->).
    exists before, (k ++ after). by rewrite <- !app_assoc.
  - rewrite split_free by done. intros t ->%list_elem_of_singleton.
    by apply includes_infix.
Qed.

End QueryMatchesStringMore.

(** X3 at the queries "a c e" and "e a" and the source "ab cd ef". *)
Lemma query_matches_string_fewer_tokens_witness :
  query_matches_string basic (str "e a") (str "ab cd ef") (str " ") = true.
Proof.
  apply (query_matches_string_fewer_tokens basic (str "a c e") (str "e a")
           (str "ab cd ef") (str " ")); [reflexivity..| |reflexivity].
  intros t. vm_compute (split _ _). rewrite !elem_of_cons. tauto.
Defined.

(** X4 at the word "b": followed by a space it does not match "ab cd ef", none of whose words starts with it. *)
Lemma query_matches_string_trailing_separator_witness :
  query_matches_string basic (str "b ") (str "ab cd ef") (str " ") = false.
Proof.
  destruct (query_matches_string basic (str "b ") (str "ab cd ef") (str " ")) eqn:H;
    [|reflexivity].
  apply (query_matches_string_trailing_separator basic (str "b") (str "ab cd ef") 32)
    in H as (t & Ht & Hp).
  - vm_compute (split _ _) in Ht. rewrite !elem_of_cons, elem_of_nil in Ht.
    destruct Ht as [-> | [-> | [-> | []]]]; by apply startsWith_prefix in Hp.
  - vm_compute (str _). rewrite !elem_of_cons, elem_of_nil. intros [|[]]; discriminate.
Defined.

(** X5 at the query "ha k" and the source "King Hamlet". *)
Lemma query_matches_string_tokens_in_source_witness :
  ∃ before after,
    remove_diacritics basic (toLowerCase basic (str "King Hamlet"))
    = before ++ str "ha" ++ after.
Proof.
  apply (query_matches_string_tokens_in_source basic (str "ha k") (str "King Hamlet")
           (str " ") eq_refl).
  vm_compute (split _ _). apply list_elem_of_here.
Defined.

(** ** More on [remove_diacritics], and [clean_query] *)

Lemma utf16_units (l : list N) :
  Forall (λ c, is_scalar c = true) l → forallb (λ u, u <? 0x10000) (utf16 l) = true.
Proof.
  induction 1 as [|c l Hc _ IH]; [done|].
  unfold utf16 in *. simpl flat_map. rewrite forallb_app, IH, andb_true_r.
  unfold utf16_of. destruct (c <? 0x10000) eqn:Hlt; simpl; [by rewrite Hlt|].
  destruct (utf16_of_pair c Hc Hlt) as (Hl & Ht & _).
  unfold is_lead, is_trail in *. lia.
Qed.

Lemma no_break_spaces_utf16 (l : list N) :
  no_break_spaces_to_spaces (utf16 l) = utf16 (no_break_spaces_to_spaces l).
Proof.
  unfold no_break_spaces_to_spaces, utf16.
  induction l as [|c l IH]; [done|].
  simpl. rewrite map_app, IH. f_equal. unfold utf16_of.
  destruct (N.eqb_spec c 0xA0) as [->|Hc]; [done|].
  destruct (c <? 0x10000) eqn:Hlt; simpl.
  - by destruct (N.eqb_spec c 0xA0).
  - generalize ((c - 0x10000) / 0x400) ((c - 0x10000) mod 0x400). intros q r.
    destruct (N.eqb_spec (0xD800 + q) 0xA0); [lia|].
    destruct (N.eqb_spec (0xDC00 + r) 0xA0); [lia|]. done.
Qed.

Lemma no_break_spaces_twice (s : jsstring) :
  no_break_spaces_to_spaces (no_break_spaces_to_spaces s) = no_break_spaces_to_spaces s.
Proof.
  unfold no_break_spaces_to_spaces. rewrite map_map. apply map_ext.
  intros c. cbv beta. destruct (N.eqb_spec c 0xA0) as [->|Hc]; [done|].
  by destruct (N.eqb_spec c 0xA0).
Qed.

Section CleanQueryFacts.
Context (U : Unicode).

Lemma stripped_plain_id (l : list N) : Forall (plain U) l → stripped U l = l.
Proof.
  intros Hl. unfold stripped.
  rewrite flat_map_fixed, canonical_order_starters, filter_all; [done|..];
    (eapply Forall_impl; [exact Hl|]); intros c (Hd & Hc & Hm); try done.
  by rewrite Hm.
Qed.

Context (HU : UnicodeData U).

Lemma stripped_plain (l : list N) : Forall (plain U) (stripped U l).
Proof.
  apply Forall_forall. intros d (Hm & c & _ & Hd)%elem_of_stripped.
  split; [by eapply decomposition_full|]. split; [|done].
  destruct (N.eq_dec (combining_class U d) 0) as [|Hne]; [done|].
  apply (combining_is_mark U HU) in Hne. congruence.
Qed.

Lemma well_formed_code_points (s : jsstring) :
  well_formed s = true → Forall (λ c, is_scalar c = true) (code_points s).
Proof.
  unfold well_formed. intros [_ Hs]%andb_true_iff.
  apply Forall_forall. intros c Hc%list_elem_of_In.
  by apply (proj1 (forallb_forall _ _) Hs).
Qed.

Lemma well_formed_utf16 (l : list N) :
  Forall (λ c, is_scalar c = true) l → well_formed (utf16 l) = true.
Proof.
  intros Hl. unfold well_formed.
  rewrite utf16_units, code_points_utf16 by done.
  apply forallb_forall. intros c Hc%list_elem_of_In.
  by apply (proj1 (Forall_forall _ _) Hl).
Qed.

(** X6: on a well-formed string, [remove_diacritics] returns a well-formed
    string none of whose code points is a combining mark. *)
Theorem remove_diacritics_no_marks (s : jsstring) (Hs : well_formed s = true) :
  well_formed (remove_diacritics U s) = true ∧
  Forall (λ c, is_mark U c = false) (code_points (remove_diacritics U s)).
Proof.
  apply well_formed_code_points in Hs.
  rewrite (remove_diacritics_code_points U HU s Hs).
  pose proof (stripped_scalar U HU _ Hs) as Hscalar.
  split; [by apply well_formed_utf16|].
  rewrite code_points_utf16 by done.
  eapply Forall_impl; [apply stripped_plain|]. by intros c (_ & _ & ?).
Qed.

Context (HL : BasicLatin U).

(** X7: [clean_query] never returns a no-break space (U+00A0), and on a
    well-formed string cleaning twice is the same as cleaning once. *)
Theorem clean_query_idempotent (query : jsstring) (Hq : well_formed query = true) :
  (0xA0 ∉ clean_query U query) ∧
  clean_query U (clean_query U query) = clean_query U query.
Proof.
  split.
  - unfold clean_query, no_break_spaces_to_spaces.
    intros (c & Hc & _)%list_elem_of_fmap. by destruct (N.eqb_spec c 0xA0).
  - apply well_formed_code_points in Hq. unfold clean_query.
    rewrite (remove_diacritics_code_points U HU query Hq), no_break_spaces_utf16.
    set (l := no_break_spaces_to_spaces (stripped U (code_points query))).
    assert (Hplain : Forall (plain U) l).
    { apply Forall_map. eapply Forall_impl; [apply stripped_plain|].
      intros c Hc. cbv beta. destruct (N.eqb_spec c 0xA0); [|done].
      split; [|split].
      - by apply (decomposition_ascii U HL).
      - by apply (combining_ascii U HL).
      - by apply (mark_ascii U HL). }
    assert (Hscalar : Forall (λ c, is_scalar c = true) l).
    { apply Forall_map. eapply Forall_impl; [by apply stripped_scalar|].
      intros c Hc. cbv beta. by destruct (N.eqb_spec c 0xA0). }
    rewrite remove_diacritics_code_points by (done || by rewrite code_points_utf16).
    rewrite code_points_utf16, stripped_plain_id, no_break_spaces_utf16 by done.
    unfold l. by rewrite no_break_spaces_twice.
Qed.

End CleanQueryFacts.

(** X6 at the string c, c-cedilla, e-acute. *)
Lemma remove_diacritics_no_marks_witness :
  well_formed (remove_diacritics basic [0x63; 0xE7; 0xE9]) = true ∧
  Forall (λ c, is_mark basic c = false) (code_points (remove_diacritics basic [0x63; 0xE7; 0xE9])).
Proof.
  exact (remove_diacritics_no_marks basic basic_UnicodeData [0x63; 0xE7; 0xE9] eq_refl).
Defined.

(** X7 at the string a, no-break space, e-acute. *)
Lemma clean_query_idempotent_witness :
  (0xA0 ∉ clean_query basic [0x61; 0xA0; 0xE9]) ∧
  clean_query basic (clean_query basic [0x61; 0xA0; 0xE9])
  = clean_query basic [0x61; 0xA0; 0xE9].
Proof.
  exact (clean_query_idempotent basic basic_UnicodeData basic_BasicLatin
           [0x61; 0xA0; 0xE9] eq_refl).
Defined.

(** ** [parse_unicode_emoji_code] *)

Lemma hex_char_digit (d : N) : d < 16 → hex_digit (hex_char d) = Some d.
Proof.
  intros Hd. unfold hex_char, hex_digit.
  destruct (N.ltb_spec d 10).
  - replace ((48 <=? 48 + d) && (48 + d <=? 57)) with true by lia. f_equal. lia.
  - replace ((48 <=? 87 + d) && (87 + d <=? 57)) with false by lia.
    replace ((97 <=? 87 + d) && (87 + d <=? 102)) with true by lia. f_equal. lia.
Qed.

(** What [parseInt] tests on the first characters: a digit is no white
    space, no sign, no hyphen and no letter x. *)
Lemma hex_char_plain (d : N) :
  d < 16 →
  is_white_space (hex_char d) = false ∧ (hex_char d =? 45) = false ∧
  (hex_char d =? 43) = false ∧ (hex_char d =? 120) = false ∧ (hex_char d =? 88) = false.
Proof.
  intros Hd. unfold is_white_space. simpl existsb.
  assert (48 ≤ hex_char d ≤ 102 ∧ hex_char d ≠ 88 ∧ hex_char d ≠ 160) as (? & ? & ?).
  { unfold hex_char. destruct (N.ltb_spec d 10); lia. }
  repeat split; try (apply N.eqb_neq; lia).
  repeat (destruct (N.eqb_spec (hex_char d) _); [lia|]). simpl. lia.
Qed.

Lemma hex_token_no_hyphen (digits : list N) :
  Forall (λ d, d < 16) digits → 45 ∉ hex_token digits.
Proof.
  intros Hd (d & Heq & Hin)%list_elem_of_fmap.
  rewrite Forall_forall in Hd. destruct (hex_char_plain d (Hd d Hin)) as (_ & H & _).
  apply N.eqb_neq in H. congruence.
Qed.

(** The digits of a numeral are read up to a character that is no digit. *)
Lemma hex_prefix_token (a : N) (digits : list N) (rest : jsstring) :
  Forall (λ d, d < 16) digits →
  match rest with [] => True | g :: _ => hex_digit g = None end →
  hex_prefix (Some a) (hex_token digits ++ rest)
  = Some (fold_left (λ a d, 16 * a + d) digits a).
Proof.
  intros Hd Hrest. revert a. induction Hd as [|d digits Hd _ IH]; intros a; simpl.
  - destruct rest as [|g rest]; [done|]. simpl. by rewrite Hrest.
  - rewrite (hex_char_digit d Hd). apply IH.
Qed.

Lemma parseInt_16_token (digits : list N) (rest : jsstring) :
  hex_digits digits →
  match rest with
  | [] => True
  | g :: _ => hex_digit g = None ∧ g ≠ 120 ∧ g ≠ 88
  end →
  parseInt_16 (hex_token digits ++ rest) = Some (Z.of_N (hex_value digits)).
Proof.
  intros [Hne Hd] Hrest. destruct digits as [|d digits]; [done|].
  apply Forall_cons in Hd as [Hd Hds].
  destruct (hex_char_plain d Hd) as (Hws & Hminus & Hplus & _).
  assert (Hread : hex_prefix None (hex_char d :: (map hex_char digits ++ rest))
                  = Some (hex_value (d :: digits))).
  { change (hex_prefix None (?c :: ?t))
      with (match hex_digit c with
            | Some d => hex_prefix (Some (16 * 0 + d)) t
            | None => None
            end).
    rewrite (hex_char_digit d Hd). apply hex_prefix_token; [done|].
    destruct rest; [done|]. by destruct Hrest. }
  assert (Htail : match map hex_char digits ++ rest with
                  | [] => True
                  | b :: _ => (b =? 120) || (b =? 88) = false
                  end).
  { destruct digits as [|d' digits]; simpl.
    - destruct rest as [|g rest]; [done|]. destruct Hrest as (_ & Hx & HX).
      apply N.eqb_neq in Hx, HX. by rewrite Hx, HX.
    - apply Forall_cons in Hds as [Hd' _].
      by destruct (hex_char_plain d' Hd') as (_ & _ & _ & -> & ->). }
  unfold parseInt_16.
  change (hex_token (d :: digits) ++ rest) with (hex_char d :: (map hex_char digits ++ rest)).
  generalize dependent (map hex_char digits ++ rest). intros tail Hread Htail.
  change (trim_start (hex_char d :: tail))
    with (if is_white_space (hex_char d) then trim_start tail else hex_char d :: tail).
  rewrite Hws, Hminus, Hplus. cbv beta iota zeta.
  destruct tail as [|b tail].
  - rewrite Hread. f_equal. lia.
  - rewrite Htail, andb_false_r, Hread. f_equal. lia.
Qed.

Lemma fromCodePoint_in_range (v : N) :
  v ≤ 0x10FFFF → fromCodePoint (Some (Z.of_N v)) = Some (utf16_of v).
Proof.
  intros Hv. unfold fromCodePoint.
  replace ((0 <=? Z.of_N v)%Z && (Z.of_N v <=? 1114111)%Z) with true by lia.
  by rewrite N2Z.id.
Qed.

Lemma fromCodePoint_out_of_range (v : N) :
  0x10FFFF < v → fromCodePoint (Some (Z.of_N v)) = None.
Proof.
  intros Hv. unfold fromCodePoint.
  by replace ((0 <=? Z.of_N v)%Z && (Z.of_N v <=? 1114111)%Z) with false by lia.
Qed.

Lemma join_empty (parts : list jsstring) : join [] parts = concat parts.
Proof.
  induction parts as [|p [|p' parts] IH]; simpl in *; [done| by rewrite app_nil_r |].
  by rewrite IH.
Qed.

(** The segments of a code made of numerals are the numerals. *)
Lemma split_hex_tokens (tokens : list (list N)) :
  tokens ≠ [] → Forall hex_digits tokens →
  split (join (str "-") (map hex_token tokens)) (str "-") = map hex_token tokens.
Proof.
  intros Hne Htokens. change (str "-") with [45]. apply split_join.
  - by destruct tokens.
  - apply Forall_map. eapply Forall_impl; [exact Htokens|].
    intros digits [_ Hd]. by apply hex_token_no_hyphen.
Qed.

Lemma decode_numerals (tokens : list (list N)) :
  tokens ≠ [] → Forall hex_digits tokens →
  Forall (λ digits, hex_value digits ≤ 0x10FFFF) tokens →
  parse_unicode_emoji_code (join (str "-") (map hex_token tokens))
  = Some (utf16 (map hex_value tokens)).
Proof.
  intros Hne Htokens Hrange.
  unfold parse_unicode_emoji_code. rewrite split_hex_tokens by done.
  assert (mapM (λ hex, fromCodePoint (parseInt_16 hex)) (map hex_token tokens)
          = Some (map (λ digits, utf16_of (hex_value digits)) tokens)) as ->.
  { apply mapM_Some, Forall2_fmap. clear Hne.
    induction tokens as [|digits tokens IH]; [constructor|].
    apply Forall_cons in Htokens as [Hd Htokens].
    apply Forall_cons in Hrange as [Hr Hrange].
    constructor; [|by apply IH].
    rewrite <- (app_nil_r (hex_token digits)), parseInt_16_token by done.
    by apply fromCodePoint_in_range. }
  simpl. rewrite join_empty. unfold utf16.
  f_equal. clear. induction tokens as [|digits tokens IH]; [done|].
  simpl. by rewrite IH.
Qed.

(** X8: a code made of hexadecimal numerals (lower-case digits, none above
    0x10FFFF) separated by hyphens decodes to the code points the numerals
    write, in their order, as UTF-16. *)
Theorem parse_unicode_emoji_code_numerals (tokens : list (list N))
    (Hne : tokens ≠ [])
    (Htokens : Forall hex_digits tokens)
    (Hrange : Forall (λ digits, hex_value digits ≤ 0x10FFFF) tokens) :
  parse_unicode_emoji_code (join (str "-") (map hex_token tokens))
  = Some (utf16 (map hex_value tokens)).
Proof. by apply decode_numerals. Qed.

(** X9: a code with an empty segment cannot be decoded: the function throws
    on the empty code, on a code that starts or ends with a hyphen, and on a
    code with two hyphens in a row. *)
Theorem parse_unicode_emoji_code_empty_segment (a b : jsstring) :
  parse_unicode_emoji_code [] = None ∧
  parse_unicode_emoji_code (str "-" ++ a) = None ∧
  parse_unicode_emoji_code (a ++ str "-") = None ∧
  parse_unicode_emoji_code (a ++ str "--" ++ b) = None.
Proof.
  assert (Hempty : ∀ code, [] ∈ split code (str "-") → parse_unicode_emoji_code code = None).
  { intros code Hin. unfold parse_unicode_emoji_code.
    assert (mapM (λ hex, fromCodePoint (parseInt_16 hex)) (split code (str "-")) = None)
      as ->; [|done].
    apply mapM_None, Exists_exists. by exists []. }
  change (str "-") with [45] in *. change (str "--") with [45; 45].
  split; [done|]. split; [|split]; apply Hempty.
  - change ([45] ++ a) with ([] ++ 45 :: a).
    rewrite (split_app 45 [] a). apply elem_of_app. left. apply list_elem_of_here.
  - rewrite (split_app 45 a []). apply elem_of_app. right. apply list_elem_of_here.
  - change (a ++ [45; 45] ++ b) with (a ++ 45 :: ([] ++ 45 :: b)).
    rewrite (split_app 45 a), (split_app 45 [] b).
    apply elem_of_app. right. apply elem_of_app. left. apply list_elem_of_here.
Qed.

(** X10: a code made of numerals one of which is above 0x10FFFF cannot be
    decoded: the function throws. *)
Theorem parse_unicode_emoji_code_out_of_range (tokens : list (list N))
    (Htokens : Forall hex_digits tokens)
    (Hrange : Exists (λ digits, 0x10FFFF < hex_value digits) tokens) :
  parse_unicode_emoji_code (join (str "-") (map hex_token tokens)) = None.
Proof.
  assert (Hne : tokens ≠ []) by (by destruct Hrange).
  unfold parse_unicode_emoji_code. rewrite split_hex_tokens by done.
  assert (mapM (λ hex, fromCodePoint (parseInt_16 hex)) (map hex_token tokens) = None)
    as ->; [|done].
  apply mapM_None, Exists_fmap.
  rewrite Forall_forall in Htokens.
  apply Exists_exists in Hrange as (digits & Hin & Hv). apply Exists_exists.
  exists digits. split; [done|]. simpl.
  rewrite <- (app_nil_r (hex_token digits)), parseInt_16_token by auto.
  by apply fromCodePoint_out_of_range.
Qed.

(** X11: what follows the digits of a segment is ignored: a numeral followed
    by any characters, the first of which is no digit (and not the letter
    x), decodes like the numeral alone. *)
Theorem parse_unicode_emoji_code_trailing_characters
    (digits : list N) (g : N) (rest : jsstring)
    (Hdigits : hex_digits digits)
    (Hrange : hex_value digits ≤ 0x10FFFF)
    (Hg : hex_digit g = None ∧ g ≠ 120 ∧ g ≠ 88)
    (Hrest : 45 ∉ g :: rest) :
  parse_unicode_emoji_code (hex_token digits ++ g :: rest) = Some (utf16_of (hex_value digits)).
Proof.
  unfold parse_unicode_emoji_code. change (str "-") with [45].
  rewrite split_free.
  - simpl. rewrite parseInt_16_token, fromCodePoint_in_range by done.
    simpl. done.
  - apply includes_single. rewrite elem_of_app. intros [H|H]; [|done].
    destruct Hdigits as [_ Hd]. by apply hex_token_no_hyphen in H.
Qed.

Ltac numerals :=
  repeat first [ apply Forall_nil_2 | apply Forall_cons_2 | split | done | lia
               | progress (unfold hex_value; simpl fold_left) ].

(** X8 at the code of a flag, two code points. *)
Lemma parse_unicode_emoji_code_numerals_witness :
  parse_unicode_emoji_code (str "1f1fa-1f1f8") = Some [0xD83C; 0xDDFA; 0xD83C; 0xDDF8].
Proof.
  apply (parse_unicode_emoji_code_numerals [[1; 15; 1; 15; 10]; [1; 15; 1; 15; 8]]);
    [done | numerals ..].
Defined.

(** X10 at a code whose second numeral is 0x110000. *)
Lemma parse_unicode_emoji_code_out_of_range_witness :
  parse_unicode_emoji_code (str "1f44d-110000") = None.
Proof.
  apply (parse_unicode_emoji_code_out_of_range [[1; 15; 4; 4; 13]; [1; 1; 0; 0; 0; 0]]).
  - numerals.
  - apply Exists_cons_tl, Exists_cons_hd. numerals.
Defined.

(** X11 at the code of the thumbs up followed by two letters z. *)
Lemma parse_unicode_emoji_code_trailing_characters_witness :
  parse_unicode_emoji_code (str "1f44dzz") = Some [0xD83D; 0xDC4D].
Proof.
  apply (parse_unicode_emoji_code_trailing_characters [1; 15; 4; 4; 13] 122 [122]).
  - numerals.
  - numerals.
  - numerals.
  - rewrite !not_elem_of_cons. numerals. apply not_elem_of_nil.
Defined.

(** ** [get_emoji_matcher] *)

Lemma spaces_to_underscores_twice (s : jsstring) :
  spaces_to_underscores (spaces_to_underscores s) = spaces_to_underscores s.
Proof.
  unfold spaces_to_underscores. rewrite map_map. apply map_ext.
  intros c. cbv beta. destruct (N.eqb_spec c 32) as [->|Hc]; [done|].
  by destruct (N.eqb_spec c 32).
Qed.

Lemma remove_diacritics_nil (U : Unicode) : remove_diacritics U [] = [].
Proof. reflexivity. Qed.

Section GetEmojiMatcherFacts.
Context (U : Unicode).

(** X12: in the query of the emoji functions a space is an underscore: the
    matcher of a query and the ranking for a query are those of the query
    with its spaces replaced by underscores. *)
Theorem emoji_query_spaces {T : Type} (emoji : T → Emoji) (query : jsstring) :
  (∀ e, get_emoji_matcher U (spaces_to_underscores query) e = get_emoji_matcher U query e) ∧
  (∀ objs, sort_emojis U emoji objs (spaces_to_underscores query)
           = sort_emojis U emoji objs query).
Proof.
  split.
  - intros e. unfold get_emoji_matcher. by rewrite spaces_to_underscores_twice.
  - intros objs. unfold sort_emojis, emoji_query. by rewrite spaces_to_underscores_twice.
Qed.

(** X13: the matcher throws exactly on a Unicode emoji whose code cannot be
    decoded (whatever the query and the name); on a custom emoji it is the
    string matcher on the name, with the separator "_". *)
Theorem get_emoji_matcher_throws (query : jsstring) (e : Emoji) :
  (get_emoji_matcher U query e = None ↔
   ∃ name code, e = UnicodeEmoji name code ∧ parse_unicode_emoji_code code = None) ∧
  (∀ name reaction,
     get_emoji_matcher U query (CustomEmoji name reaction) =
     Some (query_matches_string U
             (clean_query_lowercase U (spaces_to_underscores query)) name (str "_"))).
Proof.
  split; [|done]. unfold get_emoji_matcher.
  destruct e as [name rt|name code]; simpl.
  - split; [done|]. by intros (? & ? & ? & _).
  - destruct (parse_unicode_emoji_code code) as [decoded|] eqn:Hcode; simpl.
    + split; [done|]. intros (? & ? & [= <- <-] & ?). congruence.
    + split; [|done]. intros _. by exists name, code.
Qed.

(** X14: the matcher of the empty query accepts every custom emoji and every
    Unicode emoji whose code can be decoded.  (Lower-casing the empty string
    gives the empty string.) *)
Theorem get_emoji_matcher_empty_query (e : Emoji)
    (Hempty : toLowerCase U [] = []) :
  match e with
  | CustomEmoji _ _ => get_emoji_matcher U [] e = Some true
  | UnicodeEmoji _ code =>
      is_Some (parse_unicode_emoji_code code) → get_emoji_matcher U [] e = Some true
  end.
Proof.
  unfold get_emoji_matcher, clean_query_lowercase, clean_query.
  change (spaces_to_underscores []) with ([] : jsstring).
  rewrite Hempty, remove_diacritics_nil.
  change (no_break_spaces_to_spaces []) with ([] : jsstring).
  assert (Hall : ∀ name, query_matches_string U [] name (str "_") = true).
  { intros name. unfold query_matches_string. simpl.
    apply includes_infix. by eexists [], _. }
  destruct e as [name rt|name code]; simpl.
  - by rewrite Hall.
  - intros [decoded ->]. simpl. by rewrite Hall, orb_true_r.
Qed.

(** X15: the emoji itself as the query: when the query, once cleaned, is the
    string of the code points that the numerals of the code of a Unicode
    emoji write, the matcher accepts the emoji, whatever its name. *)
Theorem get_emoji_matcher_literal (query name : jsstring) (tokens : list (list N))
    (Hne : tokens ≠ [])
    (Htokens : Forall hex_digits tokens)
    (Hrange : Forall (λ digits, hex_value digits ≤ 0x10FFFF) tokens)
    (Hquery : clean_query_lowercase U (spaces_to_underscores query)
              = utf16 (map hex_value tokens)) :
  get_emoji_matcher U query
    (UnicodeEmoji name (join (str "-") (map hex_token tokens))) = Some true.
Proof.
  unfold get_emoji_matcher. rewrite decode_numerals by done.
  simpl. rewrite Hquery. by rewrite bool_decide_eq_true_2.
Qed.

End GetEmojiMatcherFacts.

(** X14 at a custom emoji and at a Unicode emoji. *)
Lemma get_emoji_matcher_empty_query_witness :
  get_emoji_matcher basic [] (CustomEmoji (str "zulip") zulip_extra_emoji) = Some true ∧
  get_emoji_matcher basic [] (UnicodeEmoji (str "tada") (str "1f389")) = Some true.
Proof.
  split.
  - exact (get_emoji_matcher_empty_query basic
             (CustomEmoji (str "zulip") zulip_extra_emoji) eq_refl).
  - apply (get_emoji_matcher_empty_query basic
             (UnicodeEmoji (str "tada") (str "1f389")) eq_refl).
    by eexists.
Defined.

(** X15 at the thumbs up: the query is its two code units. *)
Lemma get_emoji_matcher_literal_witness :
  get_emoji_matcher basic [0xD83D; 0xDC4D] (UnicodeEmoji (str "+1") (str "1f44d")) = Some true.
Proof.
  apply (get_emoji_matcher_literal basic [0xD83D; 0xDC4D] (str "+1") [[1; 15; 4; 4; 13]]);
    [done | numerals | numerals | reflexivity].
Defined.

(** ** More on [triage] *)

Section TriageMore.
Context (U : Unicode) {T : Type}.
Implicit Types (query : jsstring) (get_item : T → jsstring) (objs : list T).

Lemma in_tier_app f get_item t objs objs' :
  in_tier f get_item t (objs ++ objs') = in_tier f get_item t objs ++ in_tier f get_item t objs'.
Proof. apply List.filter_app. Qed.

Lemma in_tier_in_tier f get_item t t' objs :
  in_tier f get_item t (in_tier f get_item t' objs)
  = if decide (t = t') then in_tier f get_item t objs else [].
Proof.
  unfold in_tier. induction objs as [|x objs IH]; simpl; [by destruct (decide _)|].
  destruct (decide (t = t')) as [->|Hne].
  - case_bool_decide; simpl; [|done]. rewrite bool_decide_eq_true_2 by done.
    by rewrite IH.
  - case_bool_decide as Hx; simpl; [|done].
    rewrite bool_decide_eq_false_2 by congruence. done.
Qed.

(** The four tiers of the matches and the tier of the rest, filtered again
    by tier. *)
Lemma in_tier_partition_again f get_item t objs :
  in_tier f get_item t
    ((in_tier f get_item Exact objs ++ in_tier f get_item CaseSensitivePrefix objs ++
      in_tier f get_item CaseInsensitivePrefix objs ++ in_tier f get_item WordBoundary objs) ++
     in_tier f get_item NoMatch objs)
  = in_tier f get_item t objs.
Proof.
  rewrite !in_tier_app, !in_tier_in_tier.
  destruct t; simpl; by rewrite ?app_nil_r.
Qed.

(** X16: [triage] separates the objects that pass one of the four tests from
    those that pass none, with or without a comparator: [matches] holds the
    objects of the input that are not in the last tier, and [rest] those
    that are. *)
Theorem triage_matches_or_rest query objs get_item comparator :
  ∃ res, triage U query objs get_item comparator = Some res ∧
    (∀ x, x ∈ matches res ↔ x ∈ objs ∧ tier_of U query (get_item x) ≠ NoMatch) ∧
    (∀ x, x ∈ rest res ↔ x ∈ objs ∧ tier_of U query (get_item x) = NoMatch).
Proof.
  unfold triage. rewrite triage_raw_tiers. simpl.
  destruct comparator as [cmp|]; eexists; (split; [done|]); simpl; split; intros x;
    rewrite ?sort_perm, ?elem_of_app, ?elem_of_in_tier;
    destruct (tier_of U query (get_item x)); naive_solver.
Qed.

(** X17: without a comparator [triage] is a stable partition: applied to its
    own result ([matches] followed by [rest]) it returns the same result. *)
Theorem triage_again query objs get_item :
  ∃ res, triage U query objs get_item None = Some res ∧
         triage U query (matches res ++ rest res) get_item None = Some res.
Proof.
  unfold triage. rewrite triage_raw_tiers. simpl. eexists. split; [done|]. simpl.
  rewrite triage_raw_tiers. simpl. by rewrite !in_tier_partition_again.
Qed.


End TriageMore.

(** The comparator that compares lengths is consistent. *)
Lemma by_length_consistent :
  consistent_comparator (λ x y : list N, Z.of_nat (length x) - Z.of_nat (length y))%Z.
Proof. split; intros; lia. Qed.


(** ** More on [sort_emojis]: the last loop *)

Lemma filter_Permutation {A : Type} (p : A → bool) (l k : list A) :
  l ≡ₚ k → List.filter p l ≡ₚ List.filter p k.
Proof.
  induction 1 as [|x l k _ IH|x y l|l k m _ IH1 _ IH2]; simpl.
  - done.
  - destruct (p x); by rewrite IH.
  - destruct (p x), (p y); try done. apply perm_swap.
  - by rewrite IH1.
Qed.

Section UniqueFacts.
Context {T : Type} (emoji : T → Emoji).
Implicit Types (objs emojis : list T) (names : gset (list N)).

Lemma elem_of_unicode_codes emojis code :
  code ∈ unicode_codes emoji emojis ↔ ∃ k n, k ∈ emojis ∧ emoji k = UnicodeEmoji n code.
Proof.
  unfold unicode_codes. rewrite list_elem_of_omap. split.
  - intros (k & Hk & Hc). destruct (emoji k) as [|n c] eqn:He; [done|].
    injection Hc as ->. by exists k, n.
  - intros (k & n & Hk & He). exists k. by rewrite He.
Qed.

Lemma unicode_codes_snoc emojis e :
  unicode_codes emoji (emojis ++ [e])
  = unicode_codes emoji emojis ++
    match emoji e with UnicodeEmoji _ code => [code] | CustomEmoji _ _ => [] end.
Proof. unfold unicode_codes. rewrite omap_app. simpl. by destruct (emoji e). Qed.

Lemma sorted_unique_results_snoc names emojis e :
  sorted_unique_results emoji names (emojis ++ [e])
  = (unique_body emoji names (fold_left (unique_body emoji names) emojis (∅, [])) e).2.
Proof. unfold sorted_unique_results. by rewrite fold_left_app. Qed.

(** What the loop guarantees of its result: no code twice, no Unicode emoji
    with the name of a custom one, every custom emoji kept. *)
Lemma unique_invariants names emojis :
  NoDup (unicode_codes emoji (sorted_unique_results emoji names emojis)) ∧
  (∀ x n c, x ∈ sorted_unique_results emoji names emojis →
            emoji x = UnicodeEmoji n c → n ∉ names) ∧
  List.filter (λ x, is_realm_emoji (emoji x)) (sorted_unique_results emoji names emojis)
  = List.filter (λ x, is_realm_emoji (emoji x)) emojis.
Proof.
  induction emojis as [|e emojis (IH1 & IH2 & IH3)] using rev_ind.
  { split; [constructor|]. split; [|done]. by intros x n c ?%elem_of_nil. }
  rewrite sorted_unique_results_snoc.
  pose proof (unique_codes emoji names emojis) as Hcodes.
  destruct (unique_body_step emoji names
              (fold_left (unique_body emoji names) emojis (∅, [])) e)
    as (kept & -> & Hkept).
  fold (sorted_unique_results emoji names emojis) in *.
  rewrite !List.filter_app, IH3.
  destruct (emoji e) as [name rt|name c] eqn:He.
  - destruct Hkept as [-> _]. rewrite unicode_codes_snoc, He, app_nil_r.
    split; [done|]. split; [|by simpl; rewrite He].
    intros x n c [Hx | ->%list_elem_of_singleton]%elem_of_app; [by eauto | congruence].
  - destruct Hkept as [Hdrop Hkeep].
    destruct (decide (c ∈ (fold_left (unique_body emoji names) emojis (∅, [])).1
                      ∨ name ∈ names)) as [Hd|Hd].
    + destruct (Hdrop Hd) as [-> _]. rewrite app_nil_r. simpl. by rewrite He.
    + destruct (Hkeep Hd) as [-> _]. rewrite unicode_codes_snoc, He.
      split; [|split; [|by simpl; rewrite He]].
      * apply NoDup_app. split; [done|]. split; [|apply NoDup_singleton].
        intros code Hin ->%list_elem_of_singleton. apply Hd. left.
        apply Hcodes. by apply elem_of_unicode_codes.
      * intros x n c' [Hx | ->%list_elem_of_singleton]%elem_of_app; [by eauto|].
        intros He'. rewrite He in He'. injection He' as <- <-. tauto.
Qed.

(** A list that has no code twice and no Unicode emoji with a name of
    [names] goes through the loop unchanged. *)
Lemma unique_keeps_all names emojis :
  NoDup (unicode_codes emoji emojis) →
  (∀ x n c, x ∈ emojis → emoji x = UnicodeEmoji n c → n ∉ names) →
  sorted_unique_results emoji names emojis = emojis.
Proof.
  induction emojis as [|e emojis IH] using rev_ind; [done|].
  rewrite unicode_codes_snoc. intros Hnd Hnames.
  apply NoDup_app in Hnd as (Hnd & Hfresh & _).
  assert (IH' : sorted_unique_results emoji names emojis = emojis).
  { apply IH; [done|]. intros x n c Hx. apply Hnames, elem_of_app. by left. }
  rewrite sorted_unique_results_snoc.
  pose proof (unique_codes emoji names emojis) as Hcodes.
  destruct (unique_body_step emoji names
              (fold_left (unique_body emoji names) emojis (∅, [])) e)
    as (kept & -> & Hkept).
  fold (sorted_unique_results emoji names emojis) in *. rewrite IH' in *.
  destruct (emoji e) as [name rt|name c] eqn:He; [by destruct Hkept as [-> _]|].
  destruct Hkept as [_ Hkeep]. destruct Hkeep as [-> _]; [|done].
  intros [Hc | Hn].
  - apply Hcodes in Hc. apply elem_of_unicode_codes in Hc.
    apply (Hfresh c Hc). apply list_elem_of_here.
  - apply (Hnames e name c); [|done|done]. apply elem_of_app. right. apply list_elem_of_here.
Qed.

End UniqueFacts.

Section SortEmojisMore.
Context (U : Unicode) {T : Type} (emoji : T → Emoji).
Implicit Types (objs emojis : list T) (query : jsstring).

(** [sort_emojis] returns, as the result of the last loop on a permutation
    of the input. *)
Lemma sort_emojis_total objs query :
  ∃ emojis,
    emojis ≡ₚ objs ∧
    sorted_results_with_possible_duplicates U emoji (emoji_query U query) objs
      = Some emojis ∧
    sort_emojis U emoji objs query =
      Some (sorted_unique_results emoji (realm_emoji_names emoji objs) emojis).
Proof.
  destruct (candidates_total U emoji (emoji_query U query) objs) as (k & Hk & _).
  eexists. split; [by eapply candidates_perm|]. split; [done|].
  unfold sort_emojis. by rewrite Hk.
Qed.

(** X19: no two Unicode emojis of the output of [sort_emojis] have the same
    code. *)
Theorem sort_emojis_distinct_codes objs query :
  ∃ out, sort_emojis U emoji objs query = Some out ∧ NoDup (unicode_codes emoji out).
Proof.
  destruct (sort_emojis_total objs query) as (emojis & _ & _ & ->).
  eexists. split; [done|]. apply unique_invariants.
Qed.

(** X20: no Unicode emoji of the output of [sort_emojis] has the name of a
    custom emoji of the input. *)
Theorem sort_emojis_custom_overrides objs query :
  ∃ out, sort_emojis U emoji objs query = Some out ∧
    ∀ x n c o, x ∈ out → emoji x = UnicodeEmoji n c →
               o ∈ objs → is_realm_emoji (emoji o) = true → emoji_name (emoji o) ≠ n.
Proof.
  destruct (sort_emojis_total objs query) as (emojis & _ & _ & ->).
  eexists. split; [done|]. intros x n c o Hx He Ho Hr Hn.
  destruct (unique_invariants emoji (realm_emoji_names emoji objs) emojis) as (_ & H & _).
  apply (H x n c Hx He). apply realm_emoji_names_spec. by exists o.
Qed.

(** X21: [sort_emojis] keeps every custom emoji of the input: the custom
    emojis of the output are those of the input, each as many times. *)
Theorem sort_emojis_keeps_custom objs query :
  ∃ out, sort_emojis U emoji objs query = Some out ∧
    List.filter (λ x, is_realm_emoji (emoji x)) out
    ≡ₚ List.filter (λ x, is_realm_emoji (emoji x)) objs.
Proof.
  destruct (sort_emojis_total objs query) as (emojis & Hperm & _ & ->).
  eexists. split; [done|].
  destruct (unique_invariants emoji (realm_emoji_names emoji objs) emojis) as (_ & _ & ->).
  by apply filter_Permutation.
Qed.

(** X22: [sort_emojis] drops nothing from an input in which no two Unicode
    emojis have the same code and no Unicode emoji has the name of a custom
    emoji: the output is a permutation of the input. *)
Theorem sort_emojis_keeps_all objs query
    (Hcodes : NoDup (unicode_codes emoji objs))
    (Hnames : ∀ x n c o, x ∈ objs → emoji x = UnicodeEmoji n c →
                         o ∈ objs → is_realm_emoji (emoji o) = true →
                         emoji_name (emoji o) ≠ n) :
  ∃ out, sort_emojis U emoji objs query = Some out ∧ out ≡ₚ objs.
Proof.
  destruct (sort_emojis_total objs query) as (emojis & Hperm & _ & ->).
  eexists. split; [done|]. rewrite unique_keeps_all; [done|..].
  - unfold unicode_codes. by rewrite Hperm.
  - intros x n c Hx He (o & Ho & Hr & Hn)%realm_emoji_names_spec.
    rewrite Hperm in Hx. exact (Hnames x n c o Hx He Ho Hr Hn).
Qed.

End SortEmojisMore.

(** X22 at three emojis of different codes and names. *)
Lemma sort_emojis_keeps_all_witness :
  ∃ out,
    sort_emojis basic id
      [UnicodeEmoji (str "heart") (str "2764"); CustomEmoji (str "hearts") realm_emoji;
       UnicodeEmoji (str "tada") (str "1f389")] (str "he") = Some out ∧
    out ≡ₚ [UnicodeEmoji (str "heart") (str "2764"); CustomEmoji (str "hearts") realm_emoji;
            UnicodeEmoji (str "tada") (str "1f389")].
Proof.
  apply (sort_emojis_keeps_all basic id).
  - vm_compute (unicode_codes _ _). apply NoDup_cons. split.
    + rewrite list_elem_of_singleton. discriminate.
    + apply NoDup_singleton.
  - intros x n c o Hx He Ho Hr Hn. unfold id in *.
    rewrite !elem_of_cons, elem_of_nil in Hx, Ho.
    destruct Ho as [-> | [-> | [-> | []]]]; try discriminate Hr.
    destruct Hx as [-> | [-> | [-> | []]]]; try discriminate He;
      injection He as <- <-; vm_compute in Hn; discriminate Hn.
Defined.

(** ** More on [sort_emojis]: the ranking *)

Lemma filter_filter {A : Type} (p q : A → bool) (l : list A) :
  List.filter p (List.filter q l) = List.filter (λ x, q x && p x) l.
Proof.
  induction l as [|x l IH]; simpl; [done|].
  destruct (q x); simpl; [destruct (p x)|]; by rewrite IH.
Qed.

Lemma StronglySorted_sublist {A : Type} (R : relation A) (l k : list A) :
  l `sublist_of` k → StronglySorted R k → StronglySorted R l.
Proof.
  induction 1 as [|x l k Hlk IH|x l k Hlk IH]; intros Hk; [done|..];
    apply StronglySorted_cons in Hk as [Hx Hk].
  - apply StronglySorted_cons. split; [|by apply IH].
    by eapply Forall_of_sublist.
  - by apply IH.
Qed.

Section Grouping.
Context {A : Type} (key : A → nat).
Implicit Types (l : list A) (a n : nat).

Lemma grouped_S a n l :
  grouped key a (S n) l
  = List.filter (λ x, key x =? a)%nat l ++ grouped key (S a) n l.
Proof. reflexivity. Qed.

Lemma elem_of_grouped a n l x :
  x ∈ grouped key a n l ↔ x ∈ l ∧ (a ≤ key x < a + n)%nat.
Proof.
  revert a. induction n as [|n IH]; intros a.
  - split; [by intros ?%elem_of_nil | lia].
  - rewrite grouped_S, elem_of_app, elem_of_filter, IH, Nat.eqb_eq.
    split; [intros [[? ?] | [? ?]] | intros [? ?]]; try (split; [done | lia]).
    destruct (decide (key x = a)); [by left | right; split; [done | lia]].
Qed.

Lemma grouped_sorted a n l :
  StronglySorted (λ x y, (key x ≤ key y)%nat) (grouped key a n l).
Proof.
  revert a. induction n as [|n IH]; intros a; [constructor|].
  rewrite grouped_S. apply StronglySorted_app_2; [| |apply IH].
  - intros x y [_ Hx%Nat.eqb_eq]%elem_of_filter [_ Hy]%elem_of_grouped. lia.
  - clear IH. induction l as [|x l IHl]; simpl; [constructor|].
    destruct (Nat.eqb_spec (key x) a) as [Hx|]; [|done].
    constructor; [done|]. apply Forall_forall.
    intros y [_ Hy%Nat.eqb_eq]%elem_of_filter. lia.
Qed.

Lemma grouped_skip a n x l :
  (key x < a)%nat → grouped key a n (x :: l) = grouped key a n l.
Proof.
  revert a. induction n as [|n IH]; intros a Hx; [done|].
  rewrite !grouped_S, IH by lia. simpl.
  by destruct (Nat.eqb_spec (key x) a); [lia|].
Qed.

Lemma grouped_cons a n x l :
  (a ≤ key x < a + n)%nat → Forall (λ y, (key x ≤ key y)%nat) l →
  grouped key a n (x :: l) = x :: grouped key a n l.
Proof.
  intros Hx Hl. revert a Hx. induction n as [|n IH]; intros a Hx; [lia|].
  rewrite !grouped_S. simpl. destruct (Nat.eqb_spec (key x) a) as [Ha|Ha].
  - rewrite grouped_skip by lia. done.
  - rewrite IH by lia.
    assert (List.filter (λ y, key y =? a)%nat l = []) as ->; [|done].
    clear IH. induction Hl as [|y l Hy _ IHl]; simpl; [done|].
    by destruct (Nat.eqb_spec (key y) a); [lia|].
Qed.

(** Grouping a list that is in the order of the keys changes nothing. *)
Lemma grouped_of_sorted a n l :
  StronglySorted (λ x y, (key x ≤ key y)%nat) l →
  Forall (λ x, (a ≤ key x < a + n)%nat) l →
  grouped key a n l = l.
Proof.
  induction 1 as [|x l _ IH Hx]; intros Hl.
  - unfold grouped. induction (seq a n) as [|k ks IHk]; [done|]. by simpl.
  - apply Forall_cons in Hl as [Hkx Hl].
    rewrite grouped_cons, IH by done. done.
Qed.

End Grouping.

Section Ranking.
Context (U : Unicode) {T : Type} (emoji : T → Emoji).
Implicit Types (objs emojis : list T) (query : jsstring).

Lemma rank_bound query x : (0 ≤ rank U emoji query x < 0 + 12)%nat.
Proof.
  unfold rank. destruct (bool_decide _); [lia|]. destruct (is_popular _ _ _ _); [lia|].
  destruct (tier_of _ _ _), (is_realm_emoji _); simpl; lia.
Qed.

(** The list that [sort_emojis] builds before its last loop is the input
    grouped by rank. *)
Lemma ranked_grouped query objs :
  sorted_results_with_possible_duplicates U emoji query objs
  = Some (grouped (rank U emoji query) 0 12 objs).
Proof.
  unfold sorted_results_with_possible_duplicates, triage.
  rewrite triage_raw_tiers. simpl. f_equal.
  unfold perfect_emoji_matches, popular_emoji_matches, prioritise_realm_emojis, others,
    without_perfect_matches, in_tier, grouped. simpl.
  rewrite !List.filter_app, !filter_filter, <- !app_assoc, app_nil_r.
  repeat (f_equal; [apply filter_ext; intros x; unfold rank;
                    destruct (bool_decide (emoji_name (emoji x) = query));
                    destruct (is_popular U emoji query x);
                    destruct (tier_of U query (emoji_name (emoji x)));
                    destruct (is_realm_emoji (emoji x)); reflexivity|]).
  apply filter_ext; intros x; unfold rank;
    destruct (bool_decide (emoji_name (emoji x) = query));
    destruct (is_popular U emoji query x);
    destruct (tier_of U query (emoji_name (emoji x)));
    destruct (is_realm_emoji (emoji x)); reflexivity.
Qed.

Lemma sort_emojis_grouped objs query :
  sort_emojis U emoji objs query =
  Some (sorted_unique_results emoji (realm_emoji_names emoji objs)
          (grouped (rank U emoji (emoji_query U query)) 0 12 objs)).
Proof. unfold sort_emojis. by rewrite ranked_grouped. Qed.

Lemma sorted_unique_results_sublist names emojis :
  sorted_unique_results emoji names emojis `sublist_of` emojis.
Proof.
  unfold sorted_unique_results.
  by destruct (unique_extends emoji names emojis (∅, [])) as (kept & -> & Hkept).
Qed.

(** X23: the output of [sort_emojis] is in the order of the ranking: the
    perfect matches, the popular emojis, the matches of [triage] (custom
    emojis tier by tier, then Unicode emojis tier by tier), the rest of
    [triage] (custom emojis, then Unicode emojis). *)
Theorem sort_emojis_ranked objs query :
  ∃ out, sort_emojis U emoji objs query = Some out ∧
    StronglySorted (λ x y, (rank U emoji (emoji_query U query) x
                            ≤ rank U emoji (emoji_query U query) y)%nat) out.
Proof.
  rewrite sort_emojis_grouped. eexists. split; [done|].
  eapply StronglySorted_sublist; [apply sorted_unique_results_sublist|].
  apply grouped_sorted.
Qed.

(** X24: [sort_emojis] applied to its own output (with the same query)
    returns it unchanged. *)
Theorem sort_emojis_idempotent objs query :
  ∃ out, sort_emojis U emoji objs query = Some out ∧
         sort_emojis U emoji out query = Some out.
Proof.
  rewrite sort_emojis_grouped. eexists. split; [done|].
  set (key := rank U emoji (emoji_query U query)).
  set (names := realm_emoji_names emoji objs).
  set (out := sorted_unique_results emoji names (grouped key 0 12 objs)).
  destruct (unique_invariants emoji names (grouped key 0 12 objs))
    as (Hcodes & Hnames & Hcustom).
  fold out in Hcodes, Hnames, Hcustom.
  rewrite sort_emojis_grouped. fold key. f_equal.
  assert (Hgrouped : grouped key 0 12 out = out).
  { apply grouped_of_sorted.
    - eapply StronglySorted_sublist; [apply sorted_unique_results_sublist|].
      apply grouped_sorted.
    - apply Forall_forall. intros x _. apply rank_bound. }
  assert (Hsame : realm_emoji_names emoji out = names).
  { unfold names, realm_emoji_names. rewrite Hcustom. apply list_to_set_perm_L.
    apply fmap_Permutation, filter_Permutation.
    pose proof (ranked_grouped (emoji_query U query) objs) as Hranked.
    by apply candidates_perm in Hranked. }
  rewrite Hgrouped, Hsame. by apply unique_keeps_all.
Qed.

End Ranking.

(** ** Strings of the Basic Latin block *)

(** X25: a string of the Basic Latin block (code units below 128) has no
    diacritics to remove: [remove_diacritics] and [clean_query] return it
    unchanged, and [clean_query_lowercase] only lower-cases its letters. *)
Theorem clean_query_basic_latin (U : Unicode) (s : jsstring)
    (HL : BasicLatin U) (Hs : Forall (λ c, c < 128) s) :
  remove_diacritics U s = s ∧
  clean_query U s = s ∧
  clean_query_lowercase U s = map ascii_lower s.
Proof.
  assert (Hspaces : ∀ t, Forall (λ c, c < 128) t → no_break_spaces_to_spaces t = t).
  { intros t Ht. unfold no_break_spaces_to_spaces.
    rewrite <- (map_id t) at 2. apply map_ext_Forall.
    eapply Forall_impl; [exact Ht|]. intros c Hc. cbv beta in *.
    destruct (N.eqb_spec c 0xA0); [lia | done]. }
  split; [by apply remove_diacritics_ascii|]. split.
  - unfold clean_query. rewrite remove_diacritics_ascii by done. by apply Hspaces.
  - unfold clean_query_lowercase, clean_query.
    rewrite (normalised_ascii U HL s Hs). by apply Hspaces, ascii_lower_ascii.
Qed.

(** X25 at the string "Thumbs Up". *)
Lemma clean_query_basic_latin_witness :
  remove_diacritics basic (str "Thumbs Up") = str "Thumbs Up" ∧
  clean_query basic (str "Thumbs Up") = str "Thumbs Up" ∧
  clean_query_lowercase basic (str "Thumbs Up") = map ascii_lower (str "Thumbs Up").
Proof.
  apply (clean_query_basic_latin basic (str "Thumbs Up") basic_BasicLatin).
  basic_latin.
Defined.
